(** * ir_collect.py: a shallow embedding and its verified properties

    Part I holds the model, in the order of [ir_collect.py]:
    - [Py]: the fragment of Python the script relies on (exceptions with
      their class hierarchy, [try]/[except], [for] loops over a state);
    - [Text]: a [str] as the bytes it stands for, and their encoding as
      UTF-8;
    - [Sha256]: [hashlib.sha256] as a streaming object, next to the
      one-shot FIPS 180-4 function;
    - [PosixPath]: [os.path.join], [basename], [normpath], [abspath],
      [relpath] and [str.rstrip];
    - [Fs]: directory trees, [os.walk], files with I/O faults and dates;
    - one module per function of the script: [Connections],
      [HashFiles], [WriteCsv], [Compress], [Upload], [Processes];
    - [Demo] and [Cases]: the concrete inputs the statements are tried
      on.

    Part II holds the proofs: facts about the libraries first, then one
    module of claims per function. *)

From Stdlib Require Import ZArith List Lia Bool.
From Stdlib Require Import Strings.String Strings.Ascii Strings.Byte.
From Stdlib Require Import Numbers.DecimalString Numbers.DecimalPos Numbers.DecimalZ.
From Equations Require Import Equations.
From stdpp Require Import base option list strings gmap.
Import ListNotations.

Set Default Proof Using "Type".

(* ===================================================================== *)
(** * Part I. Python: exceptions, outcomes, a state-and-exception monad *)
(* ===================================================================== *)

Module Py.

(** The exception classes that can reach the script: the builtin ones
    raised by [open], [read], [csv], the text codec, [struct] and
    [zipfile], and the ones [boto3] and [botocore] raise.  [parent] is the base class, leaving out the
    classes in between that neither the script nor its libraries
    name. *)
Inductive exc_class : Type :=
  | Exception
  | OSError
  | PermissionError
  | FileNotFoundError
  | IsADirectoryError
  | ValueError
  | UnicodeError
  | UnicodeEncodeError
  | StructError
  | IndexError
  | MemoryError
  | BotoCoreError
  | NoCredentialsError
  | EndpointConnectionError
  | ClientError
  | Boto3Error
  | S3UploadFailedError.

Definition parent (c : exc_class) : option exc_class :=
  match c with
  | Exception => None
  | OSError => Some Exception
  | PermissionError => Some OSError
  | FileNotFoundError => Some OSError
  | IsADirectoryError => Some OSError
  | ValueError => Some Exception
  | UnicodeError => Some ValueError
  | UnicodeEncodeError => Some UnicodeError
  | StructError => Some Exception
  | IndexError => Some Exception
  | MemoryError => Some Exception
  | BotoCoreError => Some Exception
  | NoCredentialsError => Some BotoCoreError
  | EndpointConnectionError => Some BotoCoreError
  | ClientError => Some Exception
  | Boto3Error => Some Exception
  | S3UploadFailedError => Some Boto3Error
  end.

Definition exc_class_eqb (a b : exc_class) : bool :=
  match a, b with
  | Exception, Exception | OSError, OSError
  | PermissionError, PermissionError
  | FileNotFoundError, FileNotFoundError
  | IsADirectoryError, IsADirectoryError
  | ValueError, ValueError | IndexError, IndexError
  | UnicodeError, UnicodeError
  | UnicodeEncodeError, UnicodeEncodeError
  | StructError, StructError
  | MemoryError, MemoryError
  | BotoCoreError, BotoCoreError
  | NoCredentialsError, NoCredentialsError
  | EndpointConnectionError, EndpointConnectionError
  | ClientError, ClientError | Boto3Error, Boto3Error
  | S3UploadFailedError, S3UploadFailedError => true
  | _, _ => false
  end.

(** [issubclass c d]: [d] is [c] or one of its ancestors.  No class is
    more than three steps below [Exception], so three steps up are
    enough. *)
Fixpoint issubclass_upto (depth : nat) (c d : exc_class) : bool :=
  exc_class_eqb c d ||
  match depth with
  | O => false
  | S k => match parent c with
           | Some p => issubclass_upto k p d
           | None => false
           end
  end.

Definition issubclass : exc_class -> exc_class -> bool := issubclass_upto 3.

(** A raised exception: its class and [str(e)]. *)
Record exc : Type := Exc { exc_cls : exc_class; exc_str : string }.

Definition isinstance (e : exc) (c : exc_class) : bool :=
  issubclass (exc_cls e) c.

(** [except (c1, c2, ...)] *)
Definition caught_by (cs : list exc_class) (e : exc) : bool :=
  existsb (isinstance e) cs.

Inductive outcome (A : Type) : Type :=
  | Return (a : A)
  | Raise (e : exc).
Arguments Return {A} a.
Arguments Raise {A} e.

(** Statements over a mutable state [S]: the state survives a [Raise],
    as the objects a Python function mutated survive its exception. *)
Definition M (S A : Type) : Type := S -> outcome A * S.

Definition ret {S A} (a : A) : M S A := fun s => (Return a, s).

Definition raise {S A} (e : exc) : M S A := fun s => (Raise e, s).

Definition bind {S A B} (m : M S A) (k : A -> M S B) : M S B :=
  fun s => match m s with
           | (Return a, s') => k a s'
           | (Raise e, s') => (Raise e, s')
           end.

Definition modify {S} (f : S -> S) : M S unit := fun s => (Return tt, f s).

(** [try: body  except cs as e: handler e] *)
Definition try_except {S A} (body : M S A) (cs : list exc_class)
    (handler : exc -> M S A) : M S A :=
  fun s => match body s with
           | (Return a, s') => (Return a, s')
           | (Raise e, s') =>
               if caught_by cs e then handler e s' else (Raise e, s')
           end.

(** [for x in xs: body x] *)
Fixpoint for_each {S A} (xs : list A) (body : A -> M S unit) : M S unit :=
  match xs with
  | [] => ret tt
  | x :: xs' => bind (body x) (fun _ => for_each xs' body)
  end.

(** Lifting a pure outcome (a call that touches no state of ours). *)
Definition lift {S A} (o : outcome A) : M S A := fun s => (o, s).

End Py.

Import Py.

Declare Scope py_scope.
Delimit Scope py_scope with py.
Notation "x <~ m ; k" := (bind m (fun x => k))
  (at level 20, m at level 100, k at level 200, only parsing) : py_scope.
Notation "m ;; k" := (bind m (fun _ => k))
  (at level 100, k at level 200, right associativity) : py_scope.

(** Carrying an equation into a [with] clause of [Equations]. *)
Definition inspect {A : Type} (x : A) : { y : A | x = y } :=
  exist _ x eq_refl.

(** [t in s] on Python strings. *)
Definition contains (s t : string) : Prop :=
  exists pre post : string, s = pre +:+ t +:+ post.

(* ===================================================================== *)
(** * Text: a str and its UTF-8 encoding                              *)
(* ===================================================================== *)

Module Text.

(** A Python [str] is kept as the bytes it stands for under the file
    system encoding, UTF-8 with the [surrogateescape] handler: that is
    how file names and command-line arguments reach the script.  The
    characters of the [str] are the well-formed UTF-8 sequences of the
    bytes, and every byte outside such a sequence is one lone surrogate
    (U+DC80 to U+DCFF) of the [str].  Encoding the [str] as UTF-8 with
    strict errors, which is what [open(..., encoding='utf-8')] and
    [zipfile] do, gives the bytes back when they are well-formed and
    raises [UnicodeEncodeError] when they are not. *)

Definition in_range (lo hi b : N) : bool := ((lo <=? b) && (b <=? hi))%N.

(** Well-formed UTF-8 (Unicode, table 3-7), read byte by byte: [need]
    continuation bytes are still due, the next of them within
    [lo .. hi].  Overlong forms, encoded surrogates and code points
    above U+10FFFF are not well-formed. *)
Fixpoint valid_from (need : nat) (lo hi : N) (s : string) : bool :=
  match s with
  | EmptyString => match need with O => true | S _ => false end
  | String c s' =>
      let b := N_of_ascii c in
      match need with
      | S k => in_range lo hi b && valid_from k 0x80 0xBF s'
      | O =>
          if (b <=? 0x7F)%N then valid_from 0 0x80 0xBF s'
          else if in_range 0xC2 0xDF b then valid_from 1 0x80 0xBF s'
          else if (b =? 0xE0)%N then valid_from 2 0xA0 0xBF s'
          else if (b =? 0xED)%N then valid_from 2 0x80 0x9F s'
          else if in_range 0xE1 0xEF b then valid_from 2 0x80 0xBF s'
          else if (b =? 0xF0)%N then valid_from 3 0x90 0xBF s'
          else if in_range 0xF1 0xF3 b then valid_from 3 0x80 0xBF s'
          else if (b =? 0xF4)%N then valid_from 3 0x80 0x8F s'
          else false
      end
  end.

Definition utf8_valid (s : string) : bool := valid_from 0 0x80 0xBF s.

(** The [UnicodeEncodeError] of the strict encoder.  [exc_str] keeps
    the error's [reason]; the text Python prints for it also names the
    codec, the first surrogate and its position. *)
Definition surrogates_not_allowed : exc :=
  Exc UnicodeEncodeError "surrogates not allowed".

(** [text.encode('utf-8')], for its effect *)
Definition encode_utf8 (text : string) : outcome unit :=
  if utf8_valid text then Return tt else Raise surrogates_not_allowed.

End Text.

(* ===================================================================== *)
(** * hashlib.sha256                                                  *)
(* ===================================================================== *)

Module Sha256.

Local Open Scope Z_scope.

Definition wrap32 (x : Z) : Z := x mod 2 ^ 32.
Definition add32 (x y : Z) : Z := wrap32 (x + y).
Definition rotr (n x : Z) : Z :=
  Z.lor (Z.shiftr x n) (wrap32 (Z.shiftl x (32 - n))).
Definition not32 (x : Z) : Z := Z.lxor x 0xffffffff.

Definition Ch (x y z : Z) : Z :=
  Z.lxor (Z.land x y) (Z.land (not32 x) z).
Definition Maj (x y z : Z) : Z :=
  Z.lxor (Z.lxor (Z.land x y) (Z.land x z)) (Z.land y z).
Definition Sigma0 (x : Z) : Z :=
  Z.lxor (Z.lxor (rotr 2 x) (rotr 13 x)) (rotr 22 x).
Definition Sigma1 (x : Z) : Z :=
  Z.lxor (Z.lxor (rotr 6 x) (rotr 11 x)) (rotr 25 x).
Definition sigma0 (x : Z) : Z :=
  Z.lxor (Z.lxor (rotr 7 x) (rotr 18 x)) (Z.shiftr x 3).
Definition sigma1 (x : Z) : Z :=
  Z.lxor (Z.lxor (rotr 17 x) (rotr 19 x)) (Z.shiftr x 10).

(** FIPS 180-4, section 4.2.2: the round constants are the first
    thirty-two bits of the fractional parts of the cube roots of the
    first sixty-four primes; section 5.3.3: the initial chaining words
    are those of the square roots of the first eight. *)
Definition primes : list Z :=
  [ 2; 3; 5; 7; 11; 13; 17; 19; 23; 29; 31; 37; 41; 43; 47; 53;
    59; 61; 67; 71; 73; 79; 83; 89; 97; 101; 103; 107; 109; 113; 127; 131;
    137; 139; 149; 151; 157; 163; 167; 173; 179; 181; 191; 193; 197; 199;
    211; 223; 227; 229; 233; 239; 241; 251; 257; 263; 269; 271; 277; 281;
    283; 293; 307; 311 ].

(** The integer cube root, one bit after the other from bit [k - 1]. *)
Fixpoint cbrt_bits (k : nat) (n r : Z) : Z :=
  match k with
  | O => r
  | S k' =>
      let r' := r + 2 ^ Z.of_nat k' in
      if r' * r' * r' <=? n then cbrt_bits k' n r' else cbrt_bits k' n r
  end.

Definition frac_cbrt32 (p : Z) : Z := wrap32 (cbrt_bits 36 (p * 2 ^ 96) 0).
Definition frac_sqrt32 (p : Z) : Z := wrap32 (Z.sqrt (p * 2 ^ 64)).

Definition K : list Z := Eval vm_compute in map frac_cbrt32 primes.

(** The eight chaining words. *)
Record hstate : Type := HState {
  ha : Z; hb : Z; hc : Z; hd : Z; he : Z; hf : Z; hg : Z; hh : Z }.

Definition H0 : hstate :=
  Eval vm_compute in
    match map frac_sqrt32 (firstn 8 primes) with
    | [a; b; c; d; e; f; g; h] => HState a b c d e f g h
    | _ => HState 0 0 0 0 0 0 0 0
    end.

Definition byte_val (b : byte) : Z := Z.of_N (Byte.to_N b).

Definition byte_of_Z (z : Z) : byte :=
  match Byte.of_N (Z.to_N (z mod 256)) with
  | Some b => b
  | None => x00
  end.

(** Big-endian 32-bit words of a block. *)
Fixpoint be_words (bs : list byte) : list Z :=
  match bs with
  | b0 :: b1 :: b2 :: b3 :: rest =>
      (byte_val b0 * 2 ^ 24 + byte_val b1 * 2 ^ 16
       + byte_val b2 * 2 ^ 8 + byte_val b3) :: be_words rest
  | _ => []
  end.

(** Message schedule: [k] more words after the ones in [w]. *)
Fixpoint expand (k : nat) (w : list Z) : list Z :=
  match k with
  | O => w
  | S k' =>
      let t := length w in
      let wt := add32 (add32 (add32 (sigma1 (nth (t - 2) w 0))
                                    (nth (t - 7) w 0))
                             (sigma0 (nth (t - 15) w 0)))
                      (nth (t - 16) w 0) in
      expand k' (w ++ [wt])
  end.

Definition schedule (block : list byte) : list Z :=
  expand 48 (be_words block).

Definition round (s : hstate) (kw : Z * Z) : hstate :=
  let '(HState a b c d e f g h) := s in
  let T1 := add32 (add32 (add32 (add32 h (Sigma1 e)) (Ch e f g)) (fst kw))
                  (snd kw) in
  let T2 := add32 (Sigma0 a) (Maj a b c) in
  HState (add32 T1 T2) a b c (add32 d T1) e f g.

Definition compress (s : hstate) (block : list byte) : hstate :=
  let '(HState a b c d e f g h) :=
    fold_left round (combine K (schedule block)) s in
  HState (add32 (ha s) a) (add32 (hb s) b) (add32 (hc s) c)
         (add32 (hd s) d) (add32 (he s) e) (add32 (hf s) f)
         (add32 (hg s) g) (add32 (hh s) h).

(** Feed every complete 64-byte block of [bs] to [step]; return the
    resulting state and the bytes left over. *)
Section Absorb.
Context {St : Type} (step : St -> list byte -> St).

Equations? absorb_with (s : St) (bs : list byte) : St * list byte
  by wf (length bs) lt :=
absorb_with s bs with inspect (64 <=? length bs)%nat := {
  | exist _ true _ => absorb_with (step s (firstn 64 bs)) (skipn 64 bs)
  | exist _ false _ => (s, bs) }.
Proof.
  apply Nat.leb_le in e. rewrite length_skipn. lia.
Qed.
End Absorb.

Definition absorb : hstate -> list byte -> hstate * list byte :=
  absorb_with compress.

(** FIPS 180-4 section 5.1.1: 0x80, zero bytes up to 56 modulo 64, then
    the bit length as a big-endian 64-bit integer. *)
Definition be64 (n : Z) : list byte :=
  map (fun i => byte_of_Z (Z.shiftr n (8 * i))) [7; 6; 5; 4; 3; 2; 1; 0].

Definition padding (len : N) : list byte :=
  x80 :: repeat x00 (Z.to_nat ((55 - Z.of_N len) mod 64))
      ++ be64 ((8 * Z.of_N len) mod 2 ^ 64).

Definition hex_digit (n : Z) : ascii :=
  match n with
  | 0 => "0" | 1 => "1" | 2 => "2" | 3 => "3" | 4 => "4"
  | 5 => "5" | 6 => "6" | 7 => "7" | 8 => "8" | 9 => "9"
  | 10 => "a" | 11 => "b" | 12 => "c" | 13 => "d" | 14 => "e"
  | _ => "f"
  end%char.

Definition hex32 (w : Z) (tail : string) : string :=
  fold_right (fun i acc => String (hex_digit (Z.land (Z.shiftr w (4 * i)) 15)) acc)
             tail [7; 6; 5; 4; 3; 2; 1; 0].

Definition hex_of_hstate (s : hstate) : string :=
  let '(HState a b c d e f g h) := s in
  hex32 a (hex32 b (hex32 c (hex32 d
    (hex32 e (hex32 f (hex32 g (hex32 h ""))))))).

(** The one-shot function: pad the whole message, compress block after
    block, print the chaining value in lowercase hexadecimal. *)
Definition sha256_hex (msg : list byte) : string :=
  hex_of_hstate
    (fst (absorb H0 (msg ++ padding (N.of_nat (length msg))))).

(** The streaming object behind [hashlib.sha256()]: chaining value,
    bytes not yet forming a block, number of bytes seen. *)
Record sha256_obj : Type := Sha256Obj {
  chain : hstate;
  pending : list byte;
  seen : N }.

Definition new : sha256_obj := Sha256Obj H0 [] 0%N.

Definition update (o : sha256_obj) (data : list byte) : sha256_obj :=
  let '(s, rest) := absorb (chain o) (pending o ++ data) in
  Sha256Obj s rest (seen o + N.of_nat (length data))%N.

Definition hexdigest (o : sha256_obj) : string :=
  hex_of_hstate (fst (absorb (chain o) (pending o ++ padding (seen o)))).

(** The characters of a lowercase hexadecimal digest. *)
Definition is_lower_hex (c : ascii) : bool :=
  existsb (Ascii.eqb c) (list_ascii_of_string "0123456789abcdef").

End Sha256.

(* ===================================================================== *)
(** * posixpath and the string methods the script calls               *)
(* ===================================================================== *)

Module PosixPath.

Definition sep : ascii := "/"%char.
Definition is_sep (c : ascii) : bool := Ascii.eqb c sep.

(** [s.startswith('/')], [s.endswith('/')] *)
Definition startswith_sep (s : string) : bool :=
  match s with
  | String c _ => is_sep c
  | EmptyString => false
  end.

Fixpoint endswith_sep (s : string) : bool :=
  match s with
  | EmptyString => false
  | String c EmptyString => is_sep c
  | String _ s' => endswith_sep s'
  end.

(** [prefix.rstrip('/')] *)
Fixpoint rstrip_sep (s : string) : string :=
  match s with
  | EmptyString => EmptyString
  | String c s' =>
      match rstrip_sep s' with
      | EmptyString => if is_sep c then EmptyString else String c EmptyString
      | r => String c r
      end
  end.

(** [s.rfind('/')]: the highest index of a separator, or -1. *)
Fixpoint rfind_sep (s : string) : Z :=
  match s with
  | EmptyString => (-1)%Z
  | String c s' =>
      let r := rfind_sep s' in
      if (0 <=? r)%Z then (r + 1)%Z
      else if is_sep c then 0%Z else (-1)%Z
  end.

(** [s[i:]] for [i >= 0] *)
Fixpoint slice_from (i : nat) (s : string) : string :=
  match i, s with
  | O, _ => s
  | S _, EmptyString => EmptyString
  | S k, String _ s' => slice_from k s'
  end.

(** [posixpath.basename]: [i = p.rfind(sep) + 1; return p[i:]] *)
Definition basename (p : string) : string :=
  slice_from (Z.to_nat (rfind_sep p + 1)) p.

(** One step of [posixpath.join(a, *p)]. *)
Definition join (path b : string) : string :=
  if startswith_sep b then b
  else if (String.eqb path "" || endswith_sep path)%bool then path +:+ b
  else path +:+ String sep b.

Definition join_all (a : string) (p : list string) : string :=
  fold_left join p a.

(** [s.split('/')] *)
Fixpoint split (s : string) : list string :=
  match s with
  | EmptyString => [EmptyString]
  | String c s' =>
      if is_sep c then EmptyString :: split s'
      else match split s' with
           | h :: t => String c h :: t
           | [] => [String c EmptyString]
           end
  end.

(** ['/'.join(comps)] *)
Fixpoint sep_join (comps : list string) : string :=
  match comps with
  | [] => EmptyString
  | [c] => c
  | c :: rest => c +:+ String sep (sep_join rest)
  end.

Definition nonempty (s : string) : bool := negb (String.eqb s "").

(** ['/' in s] *)
Fixpoint has_sep (s : string) : bool :=
  match s with
  | EmptyString => false
  | String c s' => (is_sep c || has_sep s')%bool
  end.

(** [k] separators in a row. *)
Fixpoint seps (k : nat) : string :=
  match k with
  | O => EmptyString
  | S k' => String sep (seps k')
  end.

(** The names a directory listing can hold: not empty, without
    separator, and neither [.] nor [..]. *)
Definition valid_name (s : string) : bool :=
  (nonempty s && negb (has_sep s)
   && negb (String.eqb s ".") && negb (String.eqb s ".."))%bool.

(** The body of the loop of [posixpath.normpath]. *)
Definition normpath_step (initial_slashes : nat) (new_comps : list string)
    (comp : string) : list string :=
  if (String.eqb comp "" || String.eqb comp ".")%bool then new_comps
  else if (negb (String.eqb comp "..")
           || ((initial_slashes =? 0)%nat && (length new_comps =? 0)%nat)
           || (negb (length new_comps =? 0)%nat
               && String.eqb (List.last new_comps ""%string) ".."))%bool
       then new_comps ++ [comp]
  else if negb (length new_comps =? 0)%nat then removelast new_comps
  else new_comps.

(** POSIX allows one or two initial slashes, but treats three or more as
    a single slash. *)
Definition initial_slashes (path : string) : nat :=
  match path with
  | String c1 (String c2 (String c3 _)) =>
      if is_sep c1 then
        if (is_sep c2 && negb (is_sep c3))%bool then 2 else 1
      else 0
  | String c1 (String c2 EmptyString) =>
      if is_sep c1 then if is_sep c2 then 2 else 1 else 0
  | String c1 EmptyString => if is_sep c1 then 1 else 0
  | EmptyString => 0
  end.

Definition normpath (path : string) : string :=
  if String.eqb path "" then "."%string
  else
    let i := initial_slashes path in
    let comps := fold_left (normpath_step i) (split path) [] in
    let p := sep_join comps in
    let p := match i with
             | 0 => p
             | 1 => String sep p
             | _ => String sep (String sep p)
             end in
    if String.eqb p "" then "."%string else p.

(** The components [normpath] keeps. *)
Definition norm_comps (p : string) : list string :=
  fold_left (normpath_step (initial_slashes p)) (split p) [].

(** A component list as [normpath] builds it: no piece is empty or
    holds a separator. *)
Definition clean (x : string) : Prop := x <> ""%string /\ has_sep x = false.

(** [posixpath.abspath], with [os.getcwd()] as a parameter. *)
Definition abspath (cwd path : string) : string :=
  normpath (if startswith_sep path then path else join cwd path).

(** The argument [abspath] hands to [normpath]. *)
Definition absver (cwd p : string) : string :=
  if startswith_sep p then p else join cwd p.

(** [commonprefix([l1, l2])] on two lists of components. *)
Fixpoint commonprefix (l1 l2 : list string) : list string :=
  match l1, l2 with
  | x :: l1', y :: l2' =>
      if String.eqb x y then x :: commonprefix l1' l2' else []
  | _, _ => []
  end.

(** [posixpath.relpath(path, start)] *)
Definition relpath (cwd path start : string) : outcome string :=
  if String.eqb path "" then Raise (Exc ValueError "no path specified")
  else
    let start_list := filter (fun x => nonempty x = true) (split (abspath cwd start)) in
    let path_list := filter (fun x => nonempty x = true) (split (abspath cwd path)) in
    let i := length (commonprefix start_list path_list) in
    let rel_list := repeat ".."%string (length start_list - i)
                    ++ skipn i path_list in
    match rel_list with
    | [] => Return "."%string
    | a :: p => Return (join_all a p)
    end.

End PosixPath.

(* ===================================================================== *)
(** * The file system as the script sees it                           *)
(* ===================================================================== *)

Module Fs.

(** What goes wrong when a file is read: nothing, [open] raises, or the
    [k]-th call of [read] (counting from 0) raises. *)
Inductive io_fault : Type :=
  | NoFault
  | OpenRaises (e : exc)
  | ReadRaises (k : nat) (e : exc).

(** A regular file: its bytes, what reading it runs into, and the year
    of its modification time as [time.localtime] gives it. *)
Record file : Type := File {
  content : list byte;
  fault : io_fault;
  mtime_year : Z }.

(** A regular file, or a directory with its entries in [scandir] order. *)
#[warnings="-register-all"]
Inductive node : Type :=
  | Reg (f : file)
  | Dir (entries : list (string * node)).

(** Path resolution for the paths handed to the script ([os.stat]).
    Below a resolved directory the tree itself is followed: the path
    [os.path.join(root, name)] reaches the entry [name] of the directory
    listed as [root]. *)
Definition filesystem : Type := string -> option node.

(** Induction on trees, with the hypothesis for every entry of a
    directory. *)
Fixpoint node_ind' (P : node -> Prop)
    (HReg : forall f, P (Reg f))
    (HDir : forall es, Forall (fun e => P (snd e)) es -> P (Dir es))
    (n : node) : P n :=
  match n with
  | Reg f => HReg f
  | Dir es =>
      HDir es
        ((fix go (es : list (string * node)) : Forall (fun e => P (snd e)) es :=
            match es with
            | [] => Stdlib.Lists.List.Forall_nil _
            | e :: es' =>
                Stdlib.Lists.List.Forall_cons _ e es'
                  (match e return P (snd e) with
                   | (_, child) => node_ind' P HReg HDir child
                   end)
                  (go es')
            end) es)
  end.

(** [os.path.exists(path)] *)
Definition exists_ (fs : filesystem) (path : string) : bool :=
  match fs path with
  | Some _ => true
  | None => false
  end.

Definition is_dir (n : node) : bool :=
  match n with
  | Dir _ => true
  | Reg _ => false
  end.

Definition dirnames (entries : list (string * node)) : list string :=
  map fst (filter (fun e => is_dir (snd e) = true) entries).

(** The non-directory entries, each name with the file it opens. *)
Fixpoint nondirs (entries : list (string * node)) : list (string * file) :=
  match entries with
  | [] => []
  | (name, Reg f) :: es => (name, f) :: nondirs es
  | (_, Dir _) :: es => nondirs es
  end.

(** One item yielded by [os.walk]: [(root, dirs, files)]. *)
Definition walk_item : Type := string * list string * list (string * file).

(** [os.walk(top)], top-down, [onerror=None]: [scandir] on something
    that is not a directory raises [NotADirectoryError], which [os.walk]
    swallows, so walking a regular file yields nothing. *)
Fixpoint os_walk (top : string) (n : node) : list walk_item :=
  match n with
  | Reg _ => []
  | Dir entries =>
      (top, dirnames entries, nondirs entries)
      :: (fix walk_dirs (es : list (string * node)) : list walk_item :=
            match es with
            | [] => []
            | (name, child) :: es' =>
                (if is_dir child
                 then os_walk (PosixPath.join top name) child
                 else [])
                ++ walk_dirs es'
            end) entries
  end.

(** The files a walk reaches, in order, each under the path
    [os.path.join(root, name)] the script builds for it. *)
Definition walk_files (items : list walk_item) : list (string * file) :=
  flat_map (fun '(root, _, files) =>
              map (fun '(fname, f) => (PosixPath.join root fname, f)) files)
           items.

(** The regular files below a node, in the order of the walk, each with
    the names that lead to it from the node. *)
Fixpoint tree_files (n : node) : list (list string * file) :=
  match n with
  | Reg _ => []
  | Dir entries =>
      map (fun nf => ([fst nf], snd nf)) (nondirs entries)
      ++ (fix sub_files (es : list (string * node)) : list (list string * file) :=
            match es with
            | [] => []
            | (name, child) :: es' =>
                (if is_dir child
                 then map (fun cf => (name :: fst cf, snd cf)) (tree_files child)
                 else [])
                ++ sub_files es'
            end) entries
  end.

(** What one entry of a directory contributes to [tree_files]. *)
Definition entry_files (e : string * node) : list (list string * file) :=
  match snd e with
  | Reg f => [([fst e], f)]
  | Dir _ => map (fun cf => (fst e :: fst cf, snd cf)) (tree_files (snd e))
  end.

Fixpoint nodupb (l : list string) : bool :=
  match l with
  | [] => true
  | x :: l' => (negb (existsb (String.eqb x) l') && nodupb l')%bool
  end.

(** A tree as a file system holds it: in every directory the names are
    valid and pairwise distinct. *)
Fixpoint wf_node (n : node) : bool :=
  match n with
  | Reg _ => true
  | Dir entries =>
      (nodupb (map fst entries)
       && (fix wf_entries (es : list (string * node)) : bool :=
             match es with
             | [] => true
             | (name, child) :: es' =>
                 (PosixPath.valid_name name && wf_node child
                  && wf_entries es')%bool
             end) entries)%bool
  end.

(** [open(path, 'rb')] *)
Definition open_rb (f : file) : outcome file :=
  match fault f with
  | OpenRaises e => Raise e
  | _ => Return f
  end.

Definition read_fault (flt : io_fault) (i : nat) : option exc :=
  match flt with
  | ReadRaises k e => if (k =? i)%nat then Some e else None
  | _ => None
  end.

(** [for chunk in iter(lambda: f.read(n), b''): o = upd(o, chunk)]:
    [rest] is what lies after the file position, [i] counts the calls of
    [read].  The loop stops at the first empty read. *)
Section ReadLoop.
Context {St : Type} (upd : St -> list byte -> St).
Context (n : nat) (flt : io_fault).

Equations? read_loop (i : nat) (rest : list byte) (o : St) : outcome St
  by wf (length rest) lt :=
read_loop i rest o with read_fault flt i := {
  | Some e => Raise e
  | None with inspect (firstn n rest) := {
      | exist _ [] _ => Return o
      | exist _ (c :: cs) _ =>
          read_loop (S i) (skipn n rest) (upd o (c :: cs)) } }.
Proof.
  destruct n; [discriminate|]. destruct rest; [discriminate|].
  rewrite length_skipn. simpl. lia.
Qed.
End ReadLoop.

(** The same loop for a copy, [dest.write(chunk)] in place of [upd]:
    what was written stays written when a [read] raises.  The result
    is the outcome of the loop and the bytes that reached [dest]. *)
Section CopyLoop.
Context (n : nat) (flt : io_fault).

Equations? copy_loop (i : nat) (rest : list byte) (written : list byte)
  : outcome unit * list byte
  by wf (length rest) lt :=
copy_loop i rest written with read_fault flt i := {
  | Some e => (Raise e, written)
  | None with inspect (firstn n rest) := {
      | exist _ [] _ => (Return tt, written)
      | exist _ (c :: cs) _ =>
          copy_loop (S i) (skipn n rest) (written ++ c :: cs) } }.
Proof.
  destruct n; [discriminate|]. destruct rest; [discriminate|].
  rewrite length_skipn. simpl. lia.
Qed.
End CopyLoop.

End Fs.

(* ===================================================================== *)
(** * collect_connections                                             *)
(* ===================================================================== *)

Module Connections.

(** [psutil]'s [sconn]: [pid] is an int or [None]; [laddr] and [raddr]
    are [addr(ip, port)] or the empty tuple. *)
Record sconn : Type := SConn {
  pid : option Z;
  laddr : option (string * Z);
  raddr : option (string * Z);
  status : string }.

(** [str(n)] on an int *)
Definition str_of_int (n : Z) : string := NilZero.string_of_int (Z.to_int n).

(** [f"{a.ip}:{a.port}" if a else ''] *)
Definition fmt_addr (a : option (string * Z)) : string :=
  match a with
  | Some (ip, port) => ip +:+ ":" +:+ str_of_int port
  | None => ""
  end.

(** [str(conn.pid) if conn.pid else '']: [None] and [0] are both falsy. *)
Definition fmt_pid (p : option Z) : string :=
  match p with
  | Some n => if (n =? 0)%Z then "" else str_of_int n
  | None => ""
  end.

Definition conn_record (c : sconn) : list (string * string) :=
  [ ("pid", fmt_pid (pid c));
    ("local_address", fmt_addr (laddr c));
    ("remote_address", fmt_addr (raddr c));
    ("status", status c) ]%string.

(** [conns] is what [psutil.net_connections(kind='inet')] returned.
    Nothing in the body of the loop raises on such a tuple, so the
    [except Exception: continue] is never taken. *)
Definition collect_connections (conns : list sconn)
  : list (list (string * string)) :=
  map conn_record conns.

End Connections.

(* ===================================================================== *)
(** * hash_files                                                      *)
(* ===================================================================== *)

Module HashFiles.
Import Fs.

(** The list [hashes] the function builds and the caller's list
    [log_entries] it appends to. *)
Record state : Type := State {
  hashes : list (list (string * string));
  log_entries : list string }.

Definition append_hash (r : list (string * string)) : M state unit :=
  modify (fun st => State (hashes st ++ [r]) (log_entries st)).

Definition append_log (line : string) : M state unit :=
  modify (fun st => State (hashes st) (log_entries st ++ [line])).

(** The reference chunk size, [65536]. *)
Definition chunk_size : nat := 2 ^ 16.

(** [sha256 = hashlib.sha256()], [open], the read loop and
    [sha256.hexdigest()], with [n] as the argument of [read]. *)
Definition hash_stream (n : nat) (f : file) : outcome string :=
  match open_rb f with
  | Raise e => Raise e
  | Return h =>
      match read_loop Sha256.update n (fault h) 0 (content h) Sha256.new with
      | Raise e => Raise e
      | Return o => Return (Sha256.hexdigest o)
      end
  end.

Definition hash_record (path digest : string) : list (string * string) :=
  [("file", path); ("sha256", digest)]%string.

Definition missing_line (target : string) : string :=
  "Target path not found: " +:+ target.

Definition failed_line (path : string) (e : exc) : string :=
  "Failed to hash " +:+ path +:+ ": " +:+ exc_str e.

(** The [try] statement of the inner loop. *)
Definition hash_one (path : string) (f : file) : M state unit :=
  try_except
    (digest <~ lift (hash_stream chunk_size f);
     append_hash (hash_record path digest))%py
    [PermissionError; OSError]
    (fun e => append_log (failed_line path e)).

(** [for fname in files: ...] *)
Definition hash_dir_files (root : string) (files : list (string * file))
  : M state unit :=
  for_each files (fun '(fname, f) => hash_one (PosixPath.join root fname) f).

(** The body of [for target in targets: ...] *)
Definition hash_target (fs : filesystem) (target : string) : M state unit :=
  if negb (exists_ fs target) then append_log (missing_line target)
  else
    for_each (match fs target with
              | Some n => os_walk target n
              | None => []
              end)
      (fun '(root, _, files) => hash_dir_files root files).

(** What one run meets, in order: a target that does not exist, or a
    file reached under an existing target. *)
Inductive event : Type :=
  | Missing (target : string)
  | Visit (path : string) (f : file).

Definition target_events (fs : filesystem) (target : string) : list event :=
  match fs target with
  | None => [Missing target]
  | Some n => map (fun pf => Visit (fst pf) (snd pf)) (walk_files (os_walk target n))
  end.

Definition events (fs : filesystem) (targets : list string) : list event :=
  flat_map (target_events fs) targets.

Definition step (ev : event) : M state unit :=
  match ev with
  | Missing target => append_log (missing_line target)
  | Visit path f => hash_one path f
  end.

(** The record, respectively the log line, an event gives rise to. *)
Definition record_of (ev : event) : option (list (string * string)) :=
  match ev with
  | Visit path f =>
      match hash_stream chunk_size f with
      | Return d => Some (hash_record path d)
      | Raise _ => None
      end
  | Missing _ => None
  end.

Definition line_of (ev : event) : option string :=
  match ev with
  | Missing target => Some (missing_line target)
  | Visit path f =>
      match hash_stream chunk_size f with
      | Raise e => Some (failed_line path e)
      | Return _ => None
      end
  end.

(** A record made from a file the run reached and read to the end,
    carrying the digest of that file's bytes. *)
Definition record_ok (evs : list event) (r : list (string * string)) : Prop :=
  exists path f,
    In (Visit path f) evs
    /\ hash_stream chunk_size f = Return (Sha256.sha256_hex (content f))
    /\ r = hash_record path (Sha256.sha256_hex (content f)).

Definition hash_files_loop (fs : filesystem) (targets : list string)
  : M state unit :=
  for_each targets (hash_target fs).

(** [hash_files(targets, log_entries)]: the value returned (or the
    exception raised) and the caller's [log_entries] afterwards. *)
Definition hash_files (fs : filesystem) (targets : list string)
    (log : list string)
  : outcome (list (list (string * string))) * list string :=
  match hash_files_loop fs targets (State [] log) with
  | (Return _, st) => (Return (hashes st), log_entries st)
  | (Raise e, st) => (Raise e, log_entries st)
  end.

End HashFiles.

(* ===================================================================== *)
(** * write_csv                                                       *)
(* ===================================================================== *)

Module WriteCsv.

(** A file written through [csv.writer] is kept as the rows handed to
    the writer, each row the list of its fields. *)
Definition csv_file : Type := list (list string).

(** [rowdict.get(key, restval)] with [restval = ''], on a dict kept as
    its items in insertion order. *)
Fixpoint dict_get (d : list (string * string)) (key : string) : string :=
  match d with
  | [] => ""
  | (k, v) :: d' => if String.eqb k key then v else dict_get d' key
  end.

Definition mem (x : string) (l : list string) : bool :=
  existsb (String.eqb x) l.

(** [rowdict.keys() - self.fieldnames], kept in the order of the keys *)
Definition wrong_fields (fieldnames : list string)
    (rowdict : list (string * string)) : list string :=
  filter (fun k => mem k fieldnames = false) (map fst rowdict).

Fixpoint comma_join (l : list string) : string :=
  match l with
  | [] => ""
  | [x] => x
  | x :: l' => x +:+ ", " +:+ comma_join l'
  end.

(** [repr(x)] of a key that holds no quote and nothing to escape. *)
Definition repr (x : string) : string := "'" +:+ x +:+ "'".

(** [DictWriter._dict_to_list] with the default [extrasaction='raise']. *)
Definition dict_to_list (fieldnames : list string)
    (rowdict : list (string * string)) : outcome (list string) :=
  match wrong_fields fieldnames rowdict with
  | [] => Return (map (dict_get rowdict) fieldnames)
  | wrong =>
      Raise (Exc ValueError
               ("dict contains fields not in fieldnames: "
                +:+ comma_join (map repr wrong)))
  end.

(** The row written for a record under the header [fieldnames]. *)
Definition row_of (fieldnames : list string) (rowdict : list (string * string))
  : list string :=
  map (dict_get rowdict) fieldnames.

(** The state is the disk: the files written so far, by path. *)
Definition append_row (path : string) (row : list string)
  : M (gmap string csv_file) unit :=
  modify (fun disk => <[path := default [] (disk !! path) ++ [row]]> disk).

(** The file was opened with [encoding='utf-8'], so the line the writer
    hands to [f.write] is encoded at once, with strict errors.  The
    line is made of the fields, quoted where needed, of commas and of
    the line terminator: it can be encoded when every field can. *)
Definition encode_row (row : list string) : outcome unit :=
  if forallb Text.utf8_valid row then Return tt
  else Raise Text.surrogates_not_allowed.

(** [writer.writerow(row)] of the underlying [csv.writer]: nothing of a
    line that cannot be encoded reaches the file. *)
Definition write_line (path : string) (row : list string)
  : M (gmap string csv_file) unit :=
  (lift (encode_row row) ;; append_row path row)%py.

Definition writerow (fieldnames : list string) (path : string)
    (rowdict : list (string * string)) : M (gmap string csv_file) unit :=
  (row <~ lift (dict_to_list fieldnames rowdict);
   write_line path row)%py.

(** [write_csv(rows, path)].  [open_fault path] is what
    [open(path, 'w')] raises, if anything; otherwise the file is created
    or truncated.  Leaving the [with] block flushes what was written,
    also when an exception leaves it. *)
Definition write_csv (open_fault : string -> option exc)
    (rows : list (list (string * string))) (path : string)
  : M (gmap string csv_file) unit :=
  match rows with
  | [] => ret tt
  | first :: _ =>
      let fieldnames := map fst first in
      match open_fault path with
      | Some e => raise e
      | None =>
          (modify (fun disk => <[path := []]> disk) ;;
           write_line path fieldnames ;;
           for_each rows (writerow fieldnames path))%py
      end
  end.

End WriteCsv.

(* ===================================================================== *)
(** * compress_directory                                              *)
(* ===================================================================== *)

Module Compress.
Import Fs.

(** A ZIP archive: its members in the order written, each the stored
    name and the stored (deflated, hence recoverable) bytes. *)
Definition archive : Type := list (string * list byte).

Fixpoint lstrip_sep (s : string) : string :=
  match s with
  | String c s' => if PosixPath.is_sep c then lstrip_sep s' else s
  | EmptyString => EmptyString
  end.

(** [ZipInfo.from_file]: the member name is the normalised [arcname]
    with its leading separators removed; [arcname[0]] on the empty
    string raises [IndexError]. *)
Definition zip_arcname (arcname : string) : outcome string :=
  let a := PosixPath.normpath arcname in
  match lstrip_sep a with
  | EmptyString =>
      Raise (Exc IndexError "string index out of range")
  | name => Return name
  end.

(** [ZipFile.write] copies the file with [shutil.copyfileobj], in
    chunks of 8 KiB. *)
Definition copy_chunk : nat := 2 ^ 13.

(** [shutil.copyfileobj(src, dest, 1024*8)] on an open file *)
Definition copy_all (h : file) : outcome (list byte) :=
  read_loop (@app byte) copy_chunk (fault h) 0 (content h) [].

Definition read_whole (f : file) : outcome (list byte) :=
  match open_rb f with
  | Raise e => Raise e
  | Return h => copy_all h
  end.

(** [ZipInfo.__init__], reached from [ZipInfo.from_file] with
    [strict_timestamps=True]. *)
Definition zip_info (year : Z) : outcome unit :=
  if (year <? 1980)%Z
  then Raise (Exc ValueError "ZIP does not support timestamps before 1980")
  else Return tt.

(** [ZipInfo.FileHeader]: the name is encoded (ASCII, else UTF-8), then
    [struct.pack] takes the DOS date, [(year - 1980) << 9 | month << 5
    | day], and the length of the encoded name as unsigned 16-bit
    numbers. *)
Definition file_header (name : string) (year : Z) : outcome unit :=
  match Text.encode_utf8 name with
  | Raise e => Raise e
  | Return _ =>
      if ((2107 <? year)%Z || (65535 <? N.of_nat (String.length name))%N)%bool
      then Raise (Exc StructError "ushort format requires 0 <= number <= 65535")
      else Return tt
  end.

(** [ZipFile.write] up to the copy, in the order of its steps: the
    member's info, [open(filename, 'rb')], then the header written by
    [self.open(zinfo, 'w')].  The result is the member's name and the
    open file. *)
Definition zip_open (f : file) (arcname : string) : outcome (string * file) :=
  match zip_arcname arcname with
  | Raise e => Raise e
  | Return name =>
      match zip_info (mtime_year f) with
      | Raise e => Raise e
      | Return _ =>
          match open_rb f with
          | Raise e => Raise e
          | Return h =>
              match file_header name (mtime_year f) with
              | Raise e => Raise e
              | Return _ => Return (name, h)
              end
          end
      end
  end.

(** A member the archive can hold: dated from 1980 to 2107, under a
    name that can be encoded in at most 65535 bytes. *)
Definition storable (name : string) (f : file) : bool :=
  ((1980 <=? mtime_year f)%Z && (mtime_year f <=? 2107)%Z
   && Text.utf8_valid name && (N.of_nat (String.length name) <=? 65535)%N)%bool.

(** [zipf.write(full_path, arcname=rel_path)].  Once the member is
    open, leaving the [with] block closes it and enters it in the
    archive with the bytes copied so far, also when a [read] raised:
    the exception goes on from there. *)
Definition zip_write (f : file) (arcname : string) : M archive unit :=
  (opened <~ lift (zip_open f arcname);
   let '(name, h) := opened in
   let copied := copy_loop copy_chunk (fault h) 0 (content h) [] in
   modify (fun a => a ++ [(name, snd copied)]) ;;
   lift (fst copied))%py.

(** [compress_directory(src_dir, zip_path)]: the state is the archive
    being written at [zip_path], which lies outside [src_dir] as it does
    in [main]; [cwd] is [os.getcwd()].  [os.walk] on a path that does
    not resolve yields nothing. *)
Definition compress_directory (cwd : string) (fs : filesystem)
    (src_dir : string) : M archive unit :=
  for_each (match fs src_dir with
            | Some n => os_walk src_dir n
            | None => []
            end)
    (fun '(root, _, files) =>
       for_each files (fun '(file, f) =>
         let full_path := PosixPath.join root file in
         (rel_path <~ lift (PosixPath.relpath cwd full_path src_dir);
          zip_write f rel_path)%py)).

Definition invalid_path_part (x : string) : bool :=
  (String.eqb x "" || String.eqb x "." || String.eqb x "..")%bool.


(** [ZipFile.extractall]: each member is written below the destination
    at its name without empty, [.] and [..] components; a later member
    overwrites an earlier one of the same name.  The result maps the
    paths relative to the destination to the bytes written there. *)
Definition extract_name (name : string) : string :=
  PosixPath.sep_join
    (filter (fun x => invalid_path_part x = false) (PosixPath.split name)).



End Compress.

(* ===================================================================== *)
(** * upload_to_s3 and the end of main                                *)
(* ===================================================================== *)

Module Upload.

(** What the function can touch: the console, the local disk, and the
    calls of [upload_file] made so far, as [(Filename, Bucket, Key)]. *)
Record world : Type := World {
  console : list string;
  disk : gmap string (list byte);
  calls : list (string * string * string) }.

(** [boto3] as the script sees it: [client_s3] is what
    [boto3.client('s3')] does, [upload_file] what the transfer does for
    the given file name, bucket and key.  Both only read the disk. *)
Record boto3_module : Type := Boto3 {
  client_s3 : outcome unit;
  upload_file : string -> string -> string -> outcome unit }.

Definition print (line : string) : M world unit :=
  modify (fun w => World (console w ++ [line]) (disk w) (calls w)).

Definition record_call (c : string * string * string) : M world unit :=
  modify (fun w => World (console w) (disk w) (calls w ++ [c])).

(** [f"{prefix.rstrip('/')}/{os.path.basename(zip_path)}"] *)
Definition object_key (zip_path prefix : string) : string :=
  PosixPath.rstrip_sep prefix +:+ "/" +:+ PosixPath.basename zip_path.

(** [upload_to_s3(zip_path, bucket, prefix)]; [boto3] is [None] when
    the import at the top of the script failed. *)
Definition upload_to_s3 (boto3 : option boto3_module)
    (zip_path bucket prefix : string) : M world unit :=
  match boto3 with
  | None => print "boto3 is not installed; cannot upload to S3."
  | Some b =>
      (lift (client_s3 b) ;;
       let key := object_key zip_path prefix in
       try_except
         (record_call (zip_path, bucket, key) ;;
          lift (upload_file b zip_path bucket key) ;;
          print ("Uploaded " +:+ zip_path +:+ " to s3://" +:+ bucket
                 +:+ "/" +:+ key))
         [BotoCoreError; NoCredentialsError]
         (fun e => print ("Failed to upload to S3: " +:+ exc_str e)))%py
  end.

(** The parsed command line. *)
Record args : Type := Args {
  targets : list string;
  zip : bool;
  s3_bucket : option string;
  s3_prefix : string }.

(** [--s3-prefix] has [default='']. *)
Definition parse_s3_prefix (given : option string) : string :=
  default ""%string given.

(** Truth value of [args.s3_bucket]: [None] and [''] are falsy. *)
Definition bucket_given (a : args) : option string :=
  match s3_bucket a with
  | Some b => if String.eqb b "" then None else Some b
  | None => None
  end.

(** [a or b] on strings *)
Definition str_or (a b : string) : string :=
  if String.eqb a "" then b else a.

(** The last lines of [main]: the arguments of its call of
    [upload_to_s3], if it makes one. *)
Definition main_upload_args (a : args) (timestamp : string)
  : option (string * string * string) :=
  if (zip a || bool_decide (is_Some (bucket_given a)))%bool then
    let zip_name := timestamp +:+ ".zip" in
    let zip_path := PosixPath.join "output" zip_name in
    match bucket_given a with
    | Some b => Some (zip_path, b, str_or (s3_prefix a) timestamp)
    | None => None
    end
  else None.

End Upload.

(* ===================================================================== *)
(** * Concrete inputs                                                 *)
(* ===================================================================== *)

Module Demo.
Import Fs.

Definition a_txt : file := File (list_byte_of_string "hello") NoFault 2024.
Definition b_txt : file := File (list_byte_of_string "world") NoFault 2024.

Definition locked : file :=
  File (list_byte_of_string "secret")
       (OpenRaises (Exc PermissionError
                        "[Errno 13] Permission denied: '/data/sub/locked'"))
       2024.

(** A file whose second [read] fails. *)
Definition bad_sector : file :=
  File (list_byte_of_string "half")
       (ReadRaises 1 (Exc OSError "[Errno 5] Input/output error")) 2024.

Definition data_dir : node :=
  Dir [("a.txt", Reg a_txt);
       ("sub", Dir [("locked", Reg locked)]);
       ("b.txt", Reg b_txt)]%string.

(** [/data] is a directory, [/data/a.txt] a regular file, and nothing
    else exists. *)
Definition demo_fs : filesystem := fun p =>
  if String.eqb p "/data" then Some data_dir
  else if String.eqb p "/data/a.txt" then Some (Reg a_txt)
  else None.

Definition hello_record : list (string * string) :=
  [("file", "/data/a.txt");
   ("sha256", "2cf24dba5fb0a30e26e83b2ac5b9e29e1b161e5c1fa7425e73043362938b9824")]%string.

Definition world_record : list (string * string) :=
  [("file", "/data/b.txt");
   ("sha256", "486ea46224d1bb4fb680f34f7c9ad96a8f24ec88be73ea8e5a6c65260e9cb8a7")]%string.

Definition locked_line : string :=
  "Failed to hash /data/sub/locked: [Errno 13] Permission denied: '/data/sub/locked'".

(** A session directory as [main] leaves it. *)
Definition session_dir : node :=
  Dir [("system_info.json", Reg (File (list_byte_of_string "{}") NoFault 2024));
       ("raw", Dir [("log.txt", Reg (File (list_byte_of_string "line") NoFault 2024))]);
       ("hashes.csv", Reg (File (list_byte_of_string "file,sha256") NoFault 2024))]%string.

Definition session_fs : filesystem := fun p =>
  if String.eqb p "output/20240101T000000Z" then Some session_dir else None.

(** Records for [write_csv]: two of the shape [hash_files] produces, one
    with a key more. *)
Definition row_a : list (string * string) :=
  [("file", "/data/a.txt"); ("sha256", "2cf2")]%string.
Definition row_b : list (string * string) :=
  [("file", "/data/b.txt"); ("sha256", "486e")]%string.
Definition row_extra : list (string * string) :=
  [("file", "/data/c.txt"); ("sha256", "9f86"); ("size", "3")]%string.

Definition always_opens : string -> option exc := fun _ => None.

(** Two states of [boto3]: no credentials configured (a
    [BotoCoreError]), and a bucket that refuses the upload, which
    [upload_file] reports as [S3UploadFailedError]. *)
Definition no_credentials : Upload.boto3_module :=
  Upload.Boto3 (Return tt)
    (fun _ _ _ => Raise (Exc NoCredentialsError "Unable to locate credentials")).

Definition access_denied : Upload.boto3_module :=
  Upload.Boto3 (Return tt)
    (fun _ _ _ =>
       Raise (Exc S3UploadFailedError
                  ("Failed to upload output/20240101T000000Z.zip to "
                   +:+ "evidence/incidents/host/20240101T000000Z.zip: "
                   +:+ "An error occurred (AccessDenied) when calling the "
                   +:+ "PutObject operation: Access Denied"))).

Definition world0 : Upload.world := Upload.World [] ∅ [].

Definition bucket_only : Upload.args :=
  Upload.Args ["/data"%string] false (Some "evidence"%string) ""%string.

End Demo.

(* ===================================================================== *)
(** * collect_processes                                               *)
(* ===================================================================== *)

Module Processes.

(** [proc.info] after [process_iter(['pid', 'name', 'cmdline'])]: the
    pid, the name or [None], the command line as a list or [None]. *)
Record pinfo : Type := PInfo {
  p_pid : Z;
  p_name : option string;
  p_cmdline : option (list string) }.

Inductive psutil_error : Type :=
  | NoSuchProcess
  | AccessDenied.

(** One process of the iteration: reading its attributes gives the
    dict or raises one of the two errors the loop catches. *)
Inductive proc : Type :=
  | Proc (info : pinfo)
  | Gone (err : psutil_error).

(** [' '.join(l)] *)
Fixpoint space_join (l : list string) : string :=
  match l with
  | [] => ""
  | [x] => x
  | x :: l' => x +:+ " " +:+ space_join l'
  end.

(** [info['name'] or ''] *)
Definition fmt_name (name : option string) : string :=
  match name with
  | Some s => if String.eqb s "" then "" else s
  | None => ""
  end.

(** [' '.join(info['cmdline']) if info['cmdline'] else '']: [None] and
    the empty list are both falsy. *)
Definition fmt_cmdline (cmdline : option (list string)) : string :=
  match cmdline with
  | Some (a :: l) => space_join (a :: l)
  | Some [] => ""
  | None => ""
  end.

Definition proc_record (info : pinfo) : list (string * string) :=
  [ ("pid", Connections.str_of_int (p_pid info));
    ("name", fmt_name (p_name info));
    ("cmdline", fmt_cmdline (p_cmdline info)) ]%string.

(** The body of the loop: [processes.append(...)], or [continue] in the
    [except] clause. *)
Definition process_step (processes : list (list (string * string)))
    (p : proc) : list (list (string * string)) :=
  match p with
  | Proc info => processes ++ [proc_record info]
  | Gone _ => processes
  end.

(** [procs] is what [psutil.process_iter] yields. *)
Definition collect_processes (procs : list proc)
  : list (list (string * string)) :=
  fold_left process_step procs [].

(** The processes whose attributes could be read. *)
Fixpoint readable (procs : list proc) : list pinfo :=
  match procs with
  | [] => []
  | Proc info :: l => info :: readable l
  | Gone _ :: l => readable l
  end.

End Processes.

(* ===================================================================== *)
(** * Further concrete inputs                                         *)
(* ===================================================================== *)

Module Cases.
Import Fs.

(** A file on which [read] runs out of memory: no [OSError]. *)
Definition huge : file :=
  File (list_byte_of_string "x") (ReadRaises 0 (Exc MemoryError "")) 2024.

Definition mixed_dir : node :=
  Dir [("a.txt", Reg Demo.a_txt);
       ("huge.bin", Reg huge);
       ("b.txt", Reg Demo.b_txt)]%string.

Definition mixed_fs : filesystem := fun p =>
  if String.eqb p "/mixed" then Some mixed_dir else None.

Definition readable_dir : node :=
  Dir [("a.txt", Reg Demo.a_txt);
       ("deep", Dir [("er", Dir [("b.txt", Reg Demo.b_txt)])]);
       ("empty", Dir [])]%string.

Definition readable_fs : filesystem := fun p =>
  if String.eqb p "/r" then Some readable_dir else None.

(** A tree without a regular file. *)
Definition hollow_dir : node :=
  Dir [("empty", Dir []); ("nested", Dir [("void", Dir [])])]%string.

Definition hollow_fs : filesystem := fun p =>
  if String.eqb p "/hollow" then Some hollow_dir
  else if String.eqb p "/etc/hostname" then Some (Reg Demo.a_txt)
  else None.

(** A session directory whose second file cannot be opened. *)
Definition guarded_dir : node :=
  Dir [("system_info.json", Reg (File (list_byte_of_string "{}") NoFault 2024));
       ("log.txt", Reg Demo.locked);
       ("hashes.csv", Reg (File (list_byte_of_string "file,sha256") NoFault 2024))]%string.

Definition guarded_fs : filesystem := fun p =>
  if String.eqb p "out" then Some guarded_dir else None.

(** The session directory of [Demo], reached under another spelling. *)
Definition session_fs' : filesystem := fun p =>
  if String.eqb p "/srv/ir/output/../output/20240101T000000Z/"
  then Some Demo.session_dir else None.

(** [boto3] whose client cannot be created, and one whose upload goes
    through. *)
Definition no_region : Upload.boto3_module :=
  Upload.Boto3 (Raise (Exc BotoCoreError "You must specify a region."))
    (fun _ _ _ => Return tt).

Definition working : Upload.boto3_module :=
  Upload.Boto3 (Return tt) (fun _ _ _ => Return tt).

(** A file last modified in 1970, as a clock that was never set leaves
    it, between two files of today. *)
Definition epoch_file : file := File (list_byte_of_string "boot") NoFault 1970.

Definition dated_dir : node :=
  Dir [("a.txt", Reg Demo.a_txt);
       ("old.log", Reg epoch_file);
       ("b.txt", Reg Demo.b_txt)]%string.

Definition dated_fs : filesystem := fun p =>
  if String.eqb p "/var/ir" then Some dated_dir else None.

(** A file dated 2108. *)
Definition far_file : file := File (list_byte_of_string "later") NoFault 2108.

Definition far_fs : filesystem := fun p =>
  if String.eqb p "/var/ir" then Some (Dir [("far.log"%string, Reg far_file)])
  else None.

(** A name in Latin-1, [caf\xe9.txt]: its bytes are no UTF-8. *)
Definition latin1_name : string :=
  String "c" (String "a" (String "f" (String "233" ".txt"))).

Definition latin1_dir : node :=
  Dir [("a.txt"%string, Reg Demo.a_txt);
       (latin1_name, Reg Demo.b_txt)].

Definition latin1_fs : filesystem := fun p =>
  if String.eqb p "/var/ir" then Some latin1_dir else None.

(** What [hash_files] returns for [/var/ir] on [latin1_fs]. *)
Definition latin1_records : list (list (string * string)) :=
  [[("file", "/var/ir/a.txt");
    ("sha256", "2cf24dba5fb0a30e26e83b2ac5b9e29e1b161e5c1fa7425e73043362938b9824")];
   [("file", String.append "/var/ir/" latin1_name);
    ("sha256", "486ea46224d1bb4fb680f34f7c9ad96a8f24ec88be73ea8e5a6c65260e9cb8a7")]]%string.

(** [--targets /data --s3-bucket evidence --s3-prefix /] *)
Definition slash_prefix : Upload.args :=
  Upload.Args ["/data"%string] false (Some "evidence"%string) "/"%string.

End Cases.

(* ===================================================================== *)
(** * Part II. Loops                                                  *)
(* ===================================================================== *)

Module PyFacts.

Section ForEach.
Context {S A : Type}.
Implicit Types (body : A -> M S unit) (s : S).

Lemma for_each_app xs ys body s :
  for_each (xs ++ ys) body s
  = bind (for_each xs body) (fun _ => for_each ys body) s.
Proof.
  revert s. induction xs as [|x xs IH]; intros s; simpl.
  - reflexivity.
  - unfold bind. destruct (body x s) as [[[]|e] s']; [|reflexivity].
    rewrite IH. reflexivity.
Qed.

Lemma for_each_ext xs body1 body2 s :
  (forall x s', In x xs -> body1 x s' = body2 x s') ->
  for_each xs body1 s = for_each xs body2 s.
Proof.
  revert s. induction xs as [|x xs IH]; intros s Hext; simpl.
  - reflexivity.
  - unfold bind. rewrite Hext by (left; reflexivity).
    destruct (body2 x s) as [[[]|e] s']; [|reflexivity].
    apply IH. intros y s'' Hy. apply Hext. right. exact Hy.
Qed.

(** A step that returns lets the loop go on with the next element. *)
Lemma for_each_cons_return x xs body s s' :
  body x s = (Return tt, s') ->
  for_each (x :: xs) body s = for_each xs body s'.
Proof. intros H. simpl. unfold bind. rewrite H. reflexivity. Qed.

(** An invariant of the steps is an invariant of the loop, raised or
    not. *)
Lemma for_each_invariant (I : S -> Prop) xs body :
  (forall x s, In x xs -> I s -> I (snd (body x s))) ->
  forall s, I s -> I (snd (for_each xs body s)).
Proof.
  induction xs as [|x xs IH]; intros Hstep s Hs; simpl.
  - exact Hs.
  - unfold bind. pose proof (Hstep x s (or_introl eq_refl) Hs) as Hx.
    destruct (body x s) as [[[]|e] s']; simpl in *; [|exact Hx].
    apply IH; [|exact Hx]. intros y s'' Hy. apply Hstep. right. exact Hy.
Qed.

(** Steps that all return make the loop return. *)
Lemma for_each_returns xs body :
  (forall x s, In x xs -> fst (body x s) = Return tt) ->
  forall s, fst (for_each xs body s) = Return tt.
Proof.
  induction xs as [|x xs IH]; intros Hstep s; simpl.
  - reflexivity.
  - unfold bind. pose proof (Hstep x s (or_introl eq_refl)) as Hx.
    destruct (body x s) as [[[]|e] s']; simpl in *; [|discriminate].
    apply IH. intros y s'' Hy. apply Hstep. right. exact Hy.
Qed.
End ForEach.

Lemma for_each_map {S A B : Type} (g : A -> B) xs (body : B -> M S unit) s :
  for_each (map g xs) body s = for_each xs (fun x => body (g x)) s.
Proof.
  revert s. induction xs as [|x xs IH]; intros s; simpl; [reflexivity|].
  unfold bind. destruct (body (g x) s) as [[[]|e] s']; [|reflexivity].
  apply IH.
Qed.

(** A loop over a loop is a loop over the concatenation. *)
Lemma for_each_flat_map {S A B : Type} (g : A -> list B) xs
    (body : B -> M S unit) s :
  for_each (flat_map g xs) body s
  = for_each xs (fun x => for_each (g x) body) s.
Proof.
  revert s. induction xs as [|x xs IH]; intros s; simpl; [reflexivity|].
  rewrite for_each_app. unfold bind.
  destruct (for_each (g x) body s) as [[[]|e] s']; [|reflexivity].
  apply IH.
Qed.

End PyFacts.

(* ===================================================================== *)
(** * Strings                                                         *)
(* ===================================================================== *)

Module StringFacts.

(** [String.append] is never unfolded by [simpl]; these are its
    equations. *)
Lemma str_app_cons c (a b : string) : String c a +:+ b = String c (a +:+ b).
Proof. reflexivity. Qed.

Lemma str_app_nil_l (s : string) : "" +:+ s = s.
Proof. reflexivity. Qed.

Lemma str_app_nil_r (s : string) : s +:+ "" = s.
Proof.
  induction s as [|c s IH]; [reflexivity|]. rewrite str_app_cons, IH. reflexivity.
Qed.

Lemma str_app_assoc (a b c : string) : (a +:+ b) +:+ c = a +:+ b +:+ c.
Proof.
  induction a as [|x a IH]; [reflexivity|]. rewrite !str_app_cons, IH. reflexivity.
Qed.


Lemma contains_suffix (a b : string) : contains (a +:+ b) b.
Proof. exists a, ""%string. rewrite str_app_nil_r. reflexivity. Qed.

Lemma contains_middle (a b c : string) : contains (a +:+ b +:+ c) b.
Proof. exists a, c. reflexivity. Qed.

Lemma contains_app_r (a s t : string) : contains s t -> contains (a +:+ s) t.
Proof.
  intros (pre & post & ->). exists (a +:+ pre), post.
  rewrite str_app_assoc. reflexivity.
Qed.

End StringFacts.

(* ===================================================================== *)
(** * The streaming hash                                              *)
(* ===================================================================== *)

Module Sha256Examples.

Example K_first_last :
  nth 0 Sha256.K 0%Z = 0x428a2f98%Z /\ nth 63 Sha256.K 0%Z = 0xc67178f2%Z
  /\ length Sha256.K = 64.
Proof. repeat split. Qed.

Example H0_words :
  Sha256.ha Sha256.H0 = 0x6a09e667%Z /\ Sha256.hh Sha256.H0 = 0x5be0cd19%Z.
Proof. split; reflexivity. Qed.

Example sha256_hello :
  Sha256.sha256_hex (list_byte_of_string "hello")
  = "2cf24dba5fb0a30e26e83b2ac5b9e29e1b161e5c1fa7425e73043362938b9824"%string.
Proof. vm_compute. reflexivity. Qed.

Example sha256_empty :
  Sha256.sha256_hex []
  = "e3b0c44298fc1c149afbf4c8996fb92427ae41e4649b934ca495991b7852b855"%string.
Proof. vm_compute. reflexivity. Qed.

Example sha256_two_blocks :
  Sha256.sha256_hex (list_byte_of_string
    "abcdbcdecdefdefgefghfghighijhijkijkljklmklmnlmnomnopnopq")
  = "248d6a61d20638b8e5c026930c3e6039a33ce45964ff2167f6ecedd419db06c1"%string.
Proof. vm_compute. reflexivity. Qed.

End Sha256Examples.

Module Sha256Facts.
Import Sha256.

Lemma absorb_with_unfold {St} (step : St -> list byte -> St) s bs :
  absorb_with step s bs
  = if (64 <=? length bs)%nat
    then absorb_with step (step s (firstn 64 bs)) (skipn 64 bs)
    else (s, bs).
Proof.
  funelim (absorb_with step s bs); rewrite e; reflexivity.
Qed.

Lemma absorb_with_short {St} (step : St -> list byte -> St) s bs :
  length bs < 64 -> absorb_with step s bs = (s, bs).
Proof.
  intros Hlen. rewrite absorb_with_unfold.
  destruct (Nat.leb_spec 64 (length bs)); [lia | reflexivity].
Qed.

(** What is left over is always shorter than a block. *)
Lemma absorb_with_rest {St} (step : St -> list byte -> St) bs :
  forall s, length (snd (absorb_with step s bs)) < 64.
Proof.
  remember (length bs) as n eqn:Hn. revert bs Hn.
  induction n as [n IH] using lt_wf_ind. intros bs -> s.
  rewrite absorb_with_unfold.
  destruct (Nat.leb_spec 64 (length bs)) as [Hge | Hlt]; [|exact Hlt].
  eapply IH; [|reflexivity]. rewrite length_skipn. lia.
Qed.

(** Absorbing [a ++ b] is absorbing [a], then what [a] left over
    followed by [b]: the block boundaries do not depend on how the
    message was cut. *)
Lemma absorb_with_app {St} (step : St -> list byte -> St) a b :
  forall s,
    absorb_with step s (a ++ b)
    = absorb_with step (fst (absorb_with step s a))
                       (snd (absorb_with step s a) ++ b).
Proof.
  remember (length a) as n eqn:Hn. revert a Hn.
  induction n as [n IH] using lt_wf_ind. intros a -> s.
  rewrite (absorb_with_unfold step s a).
  destruct (Nat.leb_spec 64 (length a)) as [Hge | Hlt]; [|reflexivity].
  rewrite (absorb_with_unfold step s (a ++ b)).
  destruct (Nat.leb_spec 64 (length (a ++ b))) as [_ | Hlt].
  2: { rewrite length_app in Hlt. lia. }
  rewrite take_app_le, drop_app_le by lia.
  eapply IH; [|reflexivity]. rewrite length_skipn. lia.
Qed.

(** The state of the object after any sequence of [update]s. *)
Lemma update_fold chunks :
  forall o msg,
    (chain o, pending o) = absorb H0 msg ->
    seen o = N.of_nat (length msg) ->
    let o' := fold_left update chunks o in
    (chain o', pending o') = absorb H0 (msg ++ concat chunks)
    /\ seen o' = N.of_nat (length (msg ++ concat chunks)).
Proof.
  induction chunks as [|c chunks IH]; intros o msg Habs Hseen; simpl.
  - rewrite app_nil_r. auto.
  - rewrite app_assoc. apply IH.
    + unfold update, absorb in *. rewrite (absorb_with_app compress msg c).
      rewrite <- Habs. simpl.
      destruct (absorb_with compress (chain o) (pending o ++ c)); reflexivity.
    + unfold update.
      destruct (absorb (chain o) (pending o ++ c)). simpl.
      rewrite Hseen, length_app. lia.
Qed.

(** Feeding a message to the object chunk by chunk, in any cut, gives
    the digest of the one-shot function on the whole message. *)
Lemma hexdigest_chunks chunks :
  hexdigest (fold_left update chunks new) = sha256_hex (concat chunks).
Proof.
  destruct (update_fold chunks new []) as [Habs Hseen];
    [reflexivity | reflexivity |].
  simpl in Habs, Hseen. unfold hexdigest, sha256_hex, absorb in *.
  rewrite (absorb_with_app compress (concat chunks)).
  rewrite <- Habs, Hseen. reflexivity.
Qed.

Lemma hex_digit_lower n : is_lower_hex (hex_digit n) = true.
Proof.
  destruct n as [|p|p]; try reflexivity.
  do 4 (destruct p as [p|p|]; try reflexivity).
Qed.

Lemma hex32_length w tail :
  String.length (hex32 w tail) = 8 + String.length tail.
Proof. reflexivity. Qed.

Lemma hex32_lower w tail :
  forallb is_lower_hex (list_ascii_of_string tail) = true ->
  forallb is_lower_hex (list_ascii_of_string (hex32 w tail)) = true.
Proof.
  intros Ht. unfold hex32. cbn [fold_right list_ascii_of_string forallb].
  rewrite !hex_digit_lower, Ht. reflexivity.
Qed.

Lemma hex_of_hstate_length s : String.length (hex_of_hstate s) = 64.
Proof. destruct s. reflexivity. Qed.

Lemma hex_of_hstate_lower s :
  forallb is_lower_hex (list_ascii_of_string (hex_of_hstate s)) = true.
Proof. destruct s. unfold hex_of_hstate. repeat apply hex32_lower. reflexivity. Qed.

End Sha256Facts.

(* ===================================================================== *)
(** * rstrip and basename                                             *)
(* ===================================================================== *)

Module KeyFacts.
Import PosixPath StringFacts.

Lemma is_sep_eq c : is_sep c = true -> c = sep.
Proof. unfold is_sep. apply Ascii.eqb_eq. Qed.

(** [rstrip] only removes separators, and only at the end. *)
Lemma rstrip_sep_decompose s : exists k, s = rstrip_sep s +:+ seps k.
Proof.
  induction s as [|c s [k IH]]; [exists 0; reflexivity|].
  simpl. destruct (rstrip_sep s) as [|c' r].
  - destruct (is_sep c) eqn:Hc.
    + exists (S k). apply is_sep_eq in Hc as ->. rewrite IH at 1. reflexivity.
    + exists k. rewrite IH at 1. reflexivity.
  - exists k. rewrite IH at 1. reflexivity.
Qed.

(** ... and removes all of them. *)
Lemma rstrip_sep_no_trailing s : endswith_sep (rstrip_sep s) = false.
Proof.
  induction s as [|c s IH]; [reflexivity|].
  simpl. destruct (rstrip_sep s) as [|c' r].
  - destruct (is_sep c) eqn:Hc; [reflexivity | simpl; exact Hc].
  - exact IH.
Qed.

Lemma endswith_sep_cons c s :
  endswith_sep s = true -> endswith_sep (String c s) = true.
Proof. destruct s; [discriminate | auto]. Qed.

Lemma rfind_sep_spec s :
  (rfind_sep s = (-1)%Z /\ has_sep s = false)
  \/ ((0 <= rfind_sep s)%Z
      /\ exists dir,
           s = dir +:+ slice_from (Z.to_nat (rfind_sep s + 1)) s
           /\ endswith_sep dir = true
           /\ has_sep (slice_from (Z.to_nat (rfind_sep s + 1)) s) = false).
Proof.
  induction s as [|c s IH]; [left; auto|].
  cbn [rfind_sep has_sep].
  destruct IH as [[Hr Hs] | [Hr (dir & Hdir & Hend & Hno)]].
  - rewrite Hr. change (0 <=? -1)%Z with false. cbv iota.
    destruct (is_sep c) eqn:Hc.
    + right. split; [lia|]. exists (String c ""). simpl.
      rewrite Hc. auto.
    + left. rewrite Hs. auto.
  - right. destruct (Z.leb_spec 0 (rfind_sep s)) as [_|]; [|lia].
    replace (Z.to_nat (rfind_sep s + 1 + 1))
      with (S (Z.to_nat (rfind_sep s + 1))) by lia.
    split; [lia|]. exists (String c dir). cbn [slice_from].
    rewrite str_app_cons, <- Hdir. split; [reflexivity|].
    split; [apply endswith_sep_cons, Hend | exact Hno].
Qed.

(** [basename] is what follows the last separator. *)
Lemma basename_decompose p :
  exists dir,
    p = dir +:+ basename p
    /\ (dir = ""%string \/ endswith_sep dir = true)
    /\ has_sep (basename p) = false.
Proof.
  unfold basename. destruct (rfind_sep_spec p) as [[Hr Hs] | [_ (dir & H1 & H2 & H3)]].
  - exists ""%string. rewrite Hr. simpl. auto.
  - exists dir. auto.
Qed.

End KeyFacts.

(* ===================================================================== *)
(** * split, join, normpath, relpath                                  *)
(* ===================================================================== *)

Module PosixPathExamples.
Import PosixPath.
Local Open Scope string_scope.

Example rstrip_1 : rstrip_sep "incidents/host//" = "incidents/host".
Proof. reflexivity. Qed.
Example rstrip_2 : rstrip_sep "a//b" = "a//b".
Proof. reflexivity. Qed.
Example rstrip_3 : rstrip_sep "///" = "".
Proof. reflexivity. Qed.
Example basename_1 : basename "output/20240101T000000Z.zip" = "20240101T000000Z.zip".
Proof. reflexivity. Qed.
Example basename_2 : basename "a/b/" = "".
Proof. reflexivity. Qed.
Example basename_3 : basename "plain" = "plain".
Proof. reflexivity. Qed.
Example join_1 : join "a" "b" = "a/b".
Proof. reflexivity. Qed.
Example join_2 : join "a/" "b" = "a/b".
Proof. reflexivity. Qed.
Example join_3 : join "a" "/b" = "/b".
Proof. reflexivity. Qed.
Example join_4 : join "" "b" = "b".
Proof. reflexivity. Qed.
Example split_1 : split "/a//b" = [""; "a"; ""; "b"].
Proof. reflexivity. Qed.
Example normpath_1 : normpath "a//b/../c/." = "a/c".
Proof. reflexivity. Qed.
Example normpath_2 : normpath "" = ".".
Proof. reflexivity. Qed.
Example normpath_3 : normpath "//a" = "//a".
Proof. reflexivity. Qed.
Example normpath_4 : normpath "///a/" = "/a".
Proof. reflexivity. Qed.
Example normpath_5 : normpath "../a/../.." = "../..".
Proof. reflexivity. Qed.
Example normpath_6 : normpath "/.." = "/".
Proof. reflexivity. Qed.
Example relpath_1 :
  relpath "/home/ir" "output/ts/sub/f.json" "output/ts" = Return "sub/f.json".
Proof. reflexivity. Qed.
Example relpath_2 : relpath "/home/ir" "/etc/x" "output" = Return "../../../etc/x".
Proof. reflexivity. Qed.
Example relpath_3 : relpath "/" "a" "a" = Return ".".
Proof. reflexivity. Qed.

End PosixPathExamples.

Module PathFacts.
Import PosixPath StringFacts KeyFacts.

Lemma valid_name_spec s :
  valid_name s = true ->
  s <> ""%string /\ has_sep s = false /\ s <> "."%string /\ s <> ".."%string.
Proof.
  unfold valid_name, nonempty. rewrite !andb_true_iff, !negb_true_iff.
  intros [[[H1 H2] H3] H4]. repeat split; try assumption.
  - intros ->. discriminate.
  - intros ->. discriminate.
  - intros ->. discriminate.
Qed.

Lemma valid_name_not_abs s : valid_name s = true -> startswith_sep s = false.
Proof.
  intros H. apply valid_name_spec in H as (_ & Hs & _).
  destruct s as [|c s]; [reflexivity|]. simpl in *.
  apply orb_false_iff in Hs as [Hc _]. exact Hc.
Qed.

(** ** split *)

Lemma split_not_nil s : split s <> [].
Proof.
  induction s as [|c s IH]; [discriminate|].
  simpl. destruct (is_sep c); [discriminate|].
  destruct (split s); discriminate.
Qed.

Lemma split_app_sep a b : split (a +:+ String sep b) = split a ++ split b.
Proof.
  induction a as [|c a IH].
  - reflexivity.
  - rewrite str_app_cons. cbn [split]. rewrite IH.
    destruct (is_sep c); [reflexivity|].
    destruct (split a) as [|h t] eqn:E; [|reflexivity].
    exfalso. exact (split_not_nil a E).
Qed.

Lemma split_nosep s : has_sep s = false -> split s = [s].
Proof.
  induction s as [|c s IH]; [reflexivity|].
  simpl. intros H. apply orb_false_iff in H as [Hc Hs].
  rewrite Hc, (IH Hs). reflexivity.
Qed.

(** The pieces of a split hold no separator. *)
Lemma split_pieces_nosep s : Forall (fun x => has_sep x = false) (split s).
Proof.
  induction s as [|c s IH]; [repeat constructor|].
  simpl. destruct (is_sep c) eqn:Hc.
  - constructor; [reflexivity | exact IH].
  - destruct (split s) as [|h t]; [repeat constructor; simpl; rewrite Hc; reflexivity|].
    inversion IH as [|? ? Hh Ht]; subst. constructor; [|exact Ht].
    simpl. rewrite Hc, Hh. reflexivity.
Qed.

Lemma endswith_sep_decompose s :
  endswith_sep s = true -> exists s0, s = s0 +:+ String sep "".
Proof.
  induction s as [|c s IH]; [discriminate|].
  destruct s as [|c' s'].
  - simpl. intros Hc. apply is_sep_eq in Hc as ->. exists ""%string. reflexivity.
  - intros H. destruct (IH H) as [s0 Hs0]. exists (String c s0).
    rewrite str_app_cons, <- Hs0. reflexivity.
Qed.

Lemma endswith_sep_app_nonempty a c s :
  endswith_sep (a +:+ String c s) = endswith_sep (String c s).
Proof.
  induction a as [|x a IH]; [reflexivity|].
  rewrite str_app_cons. rewrite <- IH.
  destruct (a +:+ String c s) eqn:E; [|reflexivity].
  destruct a; discriminate.
Qed.

Lemma startswith_sep_app a b :
  a <> ""%string -> startswith_sep (a +:+ b) = startswith_sep a.
Proof. destruct a; [congruence | reflexivity]. Qed.

(** ** sep.join *)

Lemma sep_join_cons c cs :
  cs <> [] -> sep_join (c :: cs) = c +:+ String sep (sep_join cs).
Proof. destruct cs; [congruence | reflexivity]. Qed.

Lemma sep_join_snoc cs c :
  cs <> [] -> sep_join (cs ++ [c]) = sep_join cs +:+ String sep c.
Proof.
  induction cs as [|x cs IH]; [congruence|]. intros _.
  destruct cs as [|y cs]; [reflexivity|].
  change ((x :: y :: cs) ++ [c]) with (x :: ((y :: cs) ++ [c])).
  rewrite sep_join_cons by (destruct cs; discriminate).
  rewrite IH by discriminate.
  rewrite (sep_join_cons x (y :: cs)) by discriminate.
  rewrite str_app_assoc, str_app_cons. reflexivity.
Qed.

(** Splitting undoes joining, for pieces without separator. *)
Lemma split_sep_join cs :
  cs <> [] ->
  Forall (fun x => has_sep x = false) cs ->
  split (sep_join cs) = cs.
Proof.
  induction cs as [|c cs IH]; [congruence|]. intros _ Hall.
  inversion Hall as [|? ? Hc Hcs]; subst.
  destruct cs as [|c' cs]; [apply split_nosep, Hc|].
  rewrite sep_join_cons by discriminate.
  rewrite split_app_sep, (split_nosep c Hc), IH by (discriminate || exact Hcs).
  reflexivity.
Qed.


Lemma sep_join_not_abs c cs :
  valid_name c = true -> startswith_sep (sep_join (c :: cs)) = false.
Proof.
  intros Hc. pose proof (valid_name_not_abs c Hc) as Hs.
  pose proof (valid_name_spec c Hc) as (Hne & _).
  destruct cs as [|c' cs]; [exact Hs|].
  rewrite sep_join_cons by discriminate.
  rewrite startswith_sep_app by exact Hne. exact Hs.
Qed.

(** ** join *)

Lemma join_valid path name :
  valid_name name = true ->
  join path name
  = if (String.eqb path "" || endswith_sep path)%bool
    then path +:+ name else path +:+ String sep name.
Proof.
  intros H. unfold join. rewrite (valid_name_not_abs name H). reflexivity.
Qed.

Lemma join_not_empty path name :
  valid_name name = true -> join path name <> ""%string.
Proof.
  intros H. rewrite join_valid by exact H.
  apply valid_name_spec in H as (Hne & _).
  destruct (_ || _)%bool; destruct path; try discriminate.
  rewrite str_app_nil_l. exact Hne.
Qed.

Lemma join_startswith path name :
  valid_name name = true ->
  startswith_sep (join path name) = startswith_sep path.
Proof.
  intros H. rewrite join_valid by exact H.
  destruct path as [|c p].
  - simpl. apply valid_name_not_abs, H.
  - destruct (_ || _)%bool; reflexivity.
Qed.

(** ** normpath *)

Lemma initial_slashes_zero p :
  (initial_slashes p =? 0)%nat = negb (startswith_sep p).
Proof.
  destruct p as [|c1 [|c2 [|c3 p]]]; simpl; try reflexivity;
    destruct (is_sep c1); try reflexivity;
    destruct (is_sep c2); try reflexivity;
    destruct (is_sep c3); reflexivity.
Qed.

(** The loop only asks whether the path is absolute. *)
Lemma normpath_step_flag i j acc c :
  (i =? 0)%nat = (j =? 0)%nat ->
  normpath_step i acc c = normpath_step j acc c.
Proof. intros H. unfold normpath_step. rewrite H. reflexivity. Qed.

Lemma fold_normpath_step_flag i j comps acc :
  (i =? 0)%nat = (j =? 0)%nat ->
  fold_left (normpath_step i) comps acc = fold_left (normpath_step j) comps acc.
Proof.
  intros H. revert acc. induction comps as [|c comps IH]; intros acc; simpl.
  - reflexivity.
  - rewrite (normpath_step_flag i j acc c H). apply IH.
Qed.

Lemma normpath_step_valid i acc c :
  valid_name c = true -> normpath_step i acc c = acc ++ [c].
Proof.
  intros H. apply valid_name_spec in H as (H1 & _ & H3 & H4).
  unfold normpath_step.
  apply String.eqb_neq in H1, H3, H4. rewrite H1, H3, H4. reflexivity.
Qed.

Lemma normpath_step_empty i acc : normpath_step i acc "" = acc.
Proof. reflexivity. Qed.

Lemma fold_normpath_valid i comps :
  Forall (fun c => valid_name c = true) comps ->
  forall acc, fold_left (normpath_step i) comps acc = acc ++ comps.
Proof.
  induction 1 as [|c comps Hc _ IH]; intros acc; simpl.
  - symmetry. apply app_nil_r.
  - rewrite normpath_step_valid by exact Hc. rewrite IH, <- app_assoc. reflexivity.
Qed.

Lemma Forall_removelast {A} (P : A -> Prop) l :
  Forall P l -> Forall P (removelast l).
Proof.
  induction 1 as [|x l Hx Hl IH]; [constructor|].
  simpl. destruct l; [constructor|]. constructor; assumption.
Qed.

Lemma normpath_step_clean i acc c :
  Forall clean acc -> has_sep c = false -> Forall clean (normpath_step i acc c).
Proof.
  intros Hacc Hc. unfold normpath_step.
  destruct (String.eqb_spec c "") as [->|Hne]; [exact Hacc|]. simpl.
  destruct (String.eqb c "."); [exact Hacc|].
  destruct (_ || _)%bool.
  - apply Forall_app. split; [exact Hacc|]. repeat constructor; assumption.
  - destruct (negb _); [apply Forall_removelast|]; exact Hacc.
Qed.

Lemma fold_normpath_clean i comps :
  Forall (fun x => has_sep x = false) comps ->
  forall acc, Forall clean acc ->
              Forall clean (fold_left (normpath_step i) comps acc).
Proof.
  induction 1 as [|c comps Hc _ IH]; intros acc Hacc; simpl; [exact Hacc|].
  apply IH, normpath_step_clean; assumption.
Qed.

Lemma norm_comps_clean p : Forall clean (norm_comps p).
Proof.
  apply fold_normpath_clean; [apply split_pieces_nosep | constructor].
Qed.

(** Joining a valid name to a path adds it to the components. *)
Lemma norm_comps_join q name :
  valid_name name = true ->
  norm_comps (join q name) = norm_comps q ++ [name].
Proof.
  intros Hv. pose proof (valid_name_spec name Hv) as (Hne & Hns & _).
  unfold norm_comps.
  rewrite (fold_normpath_step_flag (initial_slashes (join q name))
                                   (initial_slashes q)).
  2: { rewrite !initial_slashes_zero, join_startswith by exact Hv. reflexivity. }
  rewrite join_valid by exact Hv.
  destruct (String.eqb_spec q "") as [->|Hq].
  - simpl orb. cbv iota. rewrite str_app_nil_l, (split_nosep name Hns). simpl.
    apply normpath_step_valid, Hv.
  - simpl orb. destruct (endswith_sep q) eqn:He.
    + destruct (endswith_sep_decompose q He) as [q0 ->].
      rewrite str_app_assoc, str_app_cons, str_app_nil_l.
      rewrite !split_app_sep, (split_nosep name Hns).
      change (split "") with [""%string].
      rewrite !fold_left_app. simpl.
      rewrite normpath_step_empty. apply normpath_step_valid, Hv.
    + rewrite split_app_sep, (split_nosep name Hns), fold_left_app. simpl.
      apply normpath_step_valid, Hv.
Qed.

Lemma filter_nonempty_clean l :
  Forall clean l -> filter (fun x => nonempty x = true) l = l.
Proof.
  induction 1 as [|x l [Hx _] _ IH]; [reflexivity|].
  rewrite filter_cons, IH. destruct (decide _) as [_|Hn]; [reflexivity|].
  exfalso. apply Hn. unfold nonempty. apply negb_true_iff, String.eqb_neq, Hx.
Qed.

Lemma clean_nosep l : Forall clean l -> Forall (fun x => has_sep x = false) l.
Proof. induction 1 as [|x l [_ Hx] _ IH]; constructor; assumption. Qed.

(** The non-empty pieces of a joined clean list are the list. *)
Lemma filter_split_sep_join l :
  Forall clean l ->
  filter (fun x => nonempty x = true) (split (sep_join l)) = l.
Proof.
  intros Hl. destruct l as [|c l]; [reflexivity|].
  rewrite split_sep_join by (discriminate || apply clean_nosep, Hl).
  apply filter_nonempty_clean, Hl.
Qed.

(** For an absolute path, the non-empty pieces of [normpath] are the
    components it kept. *)
Lemma filter_split_normpath q :
  startswith_sep q = true ->
  filter (fun x => nonempty x = true) (split (normpath q)) = norm_comps q.
Proof.
  intros Habs. unfold normpath.
  destruct (String.eqb_spec q "") as [->|Hq]; [discriminate|].
  fold (norm_comps q).
  pose proof (initial_slashes_zero q) as Hz. rewrite Habs in Hz. simpl in Hz.
  pose proof (norm_comps_clean q) as Hc.
  assert (Hcons : forall s,
             filter (fun x => nonempty x = true) (split (String sep s))
             = filter (fun x => nonempty x = true) (split s)).
  { intros s. change (split (String sep s)) with (""%string :: split s).
    rewrite filter_cons. destruct (decide _) as [H|_]; [discriminate H | reflexivity]. }
  destruct (initial_slashes q) as [|[|k]]; [discriminate| |].
  - change (String.eqb (String sep (sep_join (norm_comps q))) "") with false.
    cbv iota. rewrite Hcons. apply filter_split_sep_join, Hc.
  - change (String.eqb (String sep (String sep (sep_join (norm_comps q)))) "")
      with false.
    cbv iota. rewrite !Hcons. apply filter_split_sep_join, Hc.
Qed.

(** ** abspath and relpath *)

Lemma abspath_absver cwd p : abspath cwd p = normpath (absver cwd p).
Proof. reflexivity. Qed.

Lemma absver_abs cwd p :
  startswith_sep cwd = true -> startswith_sep (absver cwd p) = true.
Proof.
  intros Hcwd. unfold absver. destruct (startswith_sep p) eqn:Hp; [exact Hp|].
  unfold join. rewrite Hp. destruct cwd as [|c cwd]; [discriminate|].
  destruct (_ || _)%bool; exact Hcwd.
Qed.

Lemma endswith_sep_app a b :
  b <> ""%string -> endswith_sep (a +:+ b) = endswith_sep b.
Proof. destruct b as [|c b]; [congruence|]. intros _. apply endswith_sep_app_nonempty. Qed.

Lemma str_app_eq_nil a b : a +:+ b = ""%string -> a = ""%string /\ b = ""%string.
Proof. destruct a; [auto | discriminate]. Qed.

Lemma endswith_sep_snoc a : endswith_sep (a +:+ String sep "") = true.
Proof. rewrite endswith_sep_app by discriminate. reflexivity. Qed.

(** Making a path absolute commutes with joining a name to it. *)
Lemma absver_join cwd p name :
  startswith_sep cwd = true ->
  valid_name name = true ->
  norm_comps (absver cwd (join p name)) = norm_comps (absver cwd p) ++ [name].
Proof.
  intros Hcwd Hv. unfold absver. rewrite join_startswith by exact Hv.
  destruct (startswith_sep p) eqn:Hp; [apply norm_comps_join, Hv|].
  assert (Hcne : cwd <> ""%string) by (intros ->; discriminate).
  apply String.eqb_neq in Hcne.
  pose proof (valid_name_spec name Hv) as (Hne & Hns & _).
  pose proof (valid_name_not_abs name Hv) as Hna.
  destruct (String.eqb_spec p "") as [->|Hpne].
  - (* join cwd "" ends with a separator *)
    change (join "" name) with (if startswith_sep name then name else "" +:+ name).
    rewrite Hna, str_app_nil_l.
    assert (Hj : join (join cwd "") name = join cwd name).
    { unfold join at 2. simpl startswith_sep. cbv iota. rewrite Hcne. simpl orb.
      rewrite !join_valid by exact Hv. rewrite Hcne. simpl orb.
      destruct (endswith_sep cwd) eqn:He.
      - rewrite str_app_nil_r, Hcne, He. reflexivity.
      - rewrite endswith_sep_snoc, orb_true_r, str_app_assoc. reflexivity. }
    rewrite <- Hj. apply norm_comps_join, Hv.
  - assert (Hj : join cwd (join p name) = join (join cwd p) name).
    { apply String.eqb_neq in Hpne.
      rewrite (join_valid p name Hv), Hpne. simpl orb.
      assert (Hjp : join cwd p
                    = if endswith_sep cwd then cwd +:+ p else cwd +:+ String sep p).
      { unfold join. rewrite Hp, Hcne. reflexivity. }
      rewrite (join_valid (join cwd p) name Hv).
      assert (Hnz : String.eqb (join cwd p) "" = false).
      { apply String.eqb_neq. rewrite Hjp. intros E.
        destruct (endswith_sep cwd); apply str_app_eq_nil in E as [E _];
          apply String.eqb_neq in Hcne; contradiction. }
      assert (Hend : endswith_sep (join cwd p) = endswith_sep p).
      { rewrite Hjp. apply String.eqb_neq in Hpne.
        destruct (endswith_sep cwd).
        - apply endswith_sep_app, Hpne.
        - rewrite endswith_sep_app by discriminate.
          destruct p as [|c p']; [congruence | reflexivity]. }
      rewrite Hnz, Hend. simpl orb.
      unfold join at 1. rewrite Hcne. simpl orb.
      destruct (endswith_sep p).
      - assert (Hs : startswith_sep (p +:+ name) = false).
        { apply String.eqb_neq in Hpne. rewrite startswith_sep_app; assumption. }
        rewrite Hs, Hjp.
        destruct (endswith_sep cwd); rewrite ?str_app_assoc, ?str_app_cons; reflexivity.
      - assert (Hs : startswith_sep (p +:+ String sep name) = false).
        { apply String.eqb_neq in Hpne. rewrite startswith_sep_app; assumption. }
        rewrite Hs, Hjp.
        destruct (endswith_sep cwd); rewrite ?str_app_assoc, ?str_app_cons; reflexivity. }
    rewrite Hj. apply norm_comps_join, Hv.
Qed.

Lemma absver_join_all cwd src cs :
  startswith_sep cwd = true ->
  Forall (fun c => valid_name c = true) cs ->
  norm_comps (absver cwd (join_all src cs)) = norm_comps (absver cwd src) ++ cs.
Proof.
  intros Hcwd Hcs. revert src. unfold join_all.
  induction Hcs as [|c cs Hc _ IH]; intros src; simpl.
  - symmetry. apply app_nil_r.
  - rewrite IH, absver_join, <- app_assoc by assumption. reflexivity.
Qed.

Lemma commonprefix_app l r : commonprefix l (l ++ r) = l.
Proof.
  induction l as [|x l IH]; [reflexivity|].
  simpl. rewrite String.eqb_refl, IH. reflexivity.
Qed.

(** Joining valid names one after the other separates them by [/]. *)
Lemma join_all_sep_join c cs :
  valid_name c = true ->
  Forall (fun x => valid_name x = true) cs ->
  join_all c cs = sep_join (c :: cs).
Proof.
  intros Hc Hcs. unfold join_all.
  assert (H : forall pre acc,
             pre <> [] -> acc = sep_join pre ->
             acc <> ""%string -> endswith_sep acc = false ->
             fold_left join cs acc = sep_join (pre ++ cs)).
  { induction Hcs as [|x cs Hx _ IH]; intros pre acc Hpre Hacc Hne Hend; simpl.
    - rewrite app_nil_r. exact Hacc.
    - pose proof (valid_name_spec x Hx) as (Hxne & Hxs & _).
      rewrite join_valid by exact Hx.
      apply String.eqb_neq in Hne. rewrite Hne, Hend. simpl orb. cbv iota.
      rewrite (IH (pre ++ [x])).
      + rewrite <- app_assoc. reflexivity.
      + destruct pre; discriminate.
      + rewrite sep_join_snoc by exact Hpre. rewrite Hacc. reflexivity.
      + intros E. apply str_app_eq_nil in E as [_ E]. discriminate.
      + rewrite endswith_sep_app by discriminate.
        destruct x as [|a x]; [congruence|].
        clear - Hxs. revert a Hxs. induction x as [|b x IHx]; intros a Hxs; simpl in *.
        * apply orb_false_iff in Hxs as [Ha _]. exact Ha.
        * apply IHx. apply orb_false_iff in Hxs as [_ Hxs]. exact Hxs. }
  pose proof (valid_name_spec c Hc) as (Hcne & Hcs' & _).
  apply (H [c] c); try (discriminate || reflexivity || assumption).
  destruct c as [|a c]; [congruence|].
  clear - Hcs'. revert a Hcs'. induction c as [|b c IHc]; intros a Hs; simpl in *.
  - apply orb_false_iff in Hs as [Ha _]. exact Ha.
  - apply IHc. apply orb_false_iff in Hs as [_ Hs]. exact Hs.
Qed.

Lemma join_all_not_empty src cs :
  cs <> [] ->
  Forall (fun c => valid_name c = true) cs ->
  join_all src cs <> ""%string.
Proof.
  intros Hne Hcs. destruct (exists_last Hne) as (pre & c & ->).
  apply Forall_app in Hcs as [_ Hc]. inversion Hc; subst.
  unfold join_all. rewrite fold_left_app. simpl. apply join_not_empty. assumption.
Qed.

(** The path of a file found below [src], relative to [src], is the
    names that lead to it, joined. *)
Lemma relpath_below cwd src cs :
  startswith_sep cwd = true ->
  cs <> [] ->
  Forall (fun c => valid_name c = true) cs ->
  relpath cwd (join_all src cs) src = Return (sep_join cs).
Proof.
  intros Hcwd Hne Hcs. unfold relpath.
  pose proof (join_all_not_empty src cs Hne Hcs) as Hp.
  apply String.eqb_neq in Hp. rewrite Hp.
  rewrite !abspath_absver, !filter_split_normpath by (apply absver_abs, Hcwd).
  rewrite absver_join_all by assumption.
  rewrite commonprefix_app, Nat.sub_diag, drop_app_length. simpl.
  destruct cs as [|c cs]; [congruence|].
  inversion Hcs; subst. f_equal. apply join_all_sep_join; assumption.
Qed.

End PathFacts.

(* ===================================================================== *)
(** * Reading a file in chunks                                        *)
(* ===================================================================== *)

Module FsFacts.
Import Fs.

Section ReadLoopFacts.
Context {St : Type} (upd : St -> list byte -> St).
Context (n : nat) (flt : io_fault).

Lemma read_loop_unfold i rest o :
  read_loop upd n flt i rest o
  = match read_fault flt i with
    | Some e => Raise e
    | None =>
        match firstn n rest with
        | [] => Return o
        | c :: cs => read_loop upd n flt (S i) (skipn n rest) (upd o (c :: cs))
        end
    end.
Proof.
  funelim (read_loop upd n flt i rest o); rewrite Heq, ?e; reflexivity.
Qed.

(** A loop that ends normally has fed the whole file, cut in chunks,
    to [upd]. *)
Lemma read_loop_return rest :
  1 <= n ->
  forall i o o',
    read_loop upd n flt i rest o = Return o' ->
    exists chunks, concat chunks = rest /\ o' = fold_left upd chunks o.
Proof.
  intros Hn. remember (length rest) as m eqn:Hm. revert rest Hm.
  induction m as [m IH] using lt_wf_ind. intros rest -> i o o'.
  rewrite read_loop_unfold. destruct (read_fault flt i); [discriminate|].
  destruct (firstn n rest) as [|c cs] eqn:E.
  - intros [= <-]. exists []. split; [|reflexivity].
    destruct n; [lia|]. destruct rest; [reflexivity | discriminate].
  - intros Hrec.
    eapply IH in Hrec as (chunks & Hcat & ->); [| |reflexivity].
    + exists ((c :: cs) :: chunks). split; [|reflexivity].
      change (concat ((c :: cs) :: chunks)) with ((c :: cs) ++ concat chunks).
      rewrite Hcat, <- E. apply firstn_skipn.
    + rewrite length_skipn. destruct n; [lia|].
      destruct rest; [discriminate|]. simpl. lia.
Qed.

(** The loop raises only what the fault says. *)
Lemma read_loop_raise rest :
  forall i o e,
    read_loop upd n flt i rest o = Raise e ->
    exists k, flt = ReadRaises k e.
Proof.
  remember (length rest) as m eqn:Hm. revert rest Hm.
  induction m as [m IH] using lt_wf_ind. intros rest -> i o e.
  rewrite read_loop_unfold. destruct (read_fault flt i) as [e'|] eqn:F.
  - intros [= ->]. destruct flt as [| |k e0]; try discriminate.
    simpl in F. destruct (k =? i)%nat; [|discriminate].
    injection F as ->. exists k. reflexivity.
  - destruct (firstn n rest) as [|c cs] eqn:E; [discriminate|].
    intros Hrec. eapply IH in Hrec; [exact Hrec| |reflexivity].
    rewrite length_skipn. destruct n; [discriminate|].
    destruct rest; [discriminate|]. simpl. lia.
Qed.
End ReadLoopFacts.

Section CopyLoopFacts.
Context (n : nat) (flt : io_fault).

Lemma copy_loop_unfold i rest written :
  copy_loop n flt i rest written
  = match read_fault flt i with
    | Some e => (Raise e, written)
    | None =>
        match firstn n rest with
        | [] => (Return tt, written)
        | c :: cs => copy_loop n flt (S i) (skipn n rest) (written ++ c :: cs)
        end
    end.
Proof.
  funelim (copy_loop n flt i rest written); rewrite Heq, ?e; reflexivity.
Qed.

(** The copy ends as the reading loop does, and a copy that ends
    normally wrote what the loop read. *)
Lemma copy_loop_read_loop rest :
  forall i written,
    copy_loop n flt i rest written
    = match read_loop (@app byte) n flt i rest written with
      | Return data => (Return tt, data)
      | Raise e => (Raise e, snd (copy_loop n flt i rest written))
      end.
Proof.
  remember (length rest) as m eqn:Hm. revert rest Hm.
  induction m as [m IH] using lt_wf_ind. intros rest -> i written.
  rewrite read_loop_unfold. rewrite (copy_loop_unfold i rest written).
  destruct (read_fault flt i); [reflexivity|].
  destruct (firstn n rest) as [|c cs] eqn:E; [reflexivity|].
  eapply IH; [|reflexivity].
  rewrite length_skipn. destruct n; [discriminate|].
  destruct rest; [discriminate|]. simpl. lia.
Qed.
End CopyLoopFacts.

Lemma fold_left_app_concat {A} (chunks : list (list A)) acc :
  fold_left (@app A) chunks acc = acc ++ concat chunks.
Proof.
  revert acc. induction chunks as [|c chunks IH]; intros acc; simpl.
  - symmetry. apply app_nil_r.
  - rewrite IH. symmetry. apply app_assoc.
Qed.

End FsFacts.

(* ===================================================================== *)
(** * Directory trees                                                 *)
(* ===================================================================== *)

Module TreeFacts.
Import Fs PosixPath PathFacts.

Lemma walk_files_app a b : walk_files (a ++ b) = walk_files a ++ walk_files b.
Proof. unfold walk_files. apply flat_map_app. Qed.

(** The paths [os.walk] and [os.path.join] build are the names of
    [tree_files], joined to the top one after the other. *)
Lemma walk_files_tree n :
  forall top,
    walk_files (os_walk top n)
    = map (fun cf => (join_all top (fst cf), snd cf)) (tree_files n).
Proof.
  induction n as [f | es IH] using node_ind'; intros top; [reflexivity|].
  cbn [os_walk tree_files]. rewrite map_app.
  match goal with
  | |- walk_files (?item :: ?rest) = _ =>
      change (item :: rest) with ([item] ++ rest)
  end.
  rewrite walk_files_app. f_equal.
  - unfold walk_files. simpl. rewrite app_nil_r, map_map.
    apply map_ext. intros [name f]. reflexivity.
  - induction IH as [|[name child] es' Hchild _ IHes]; [reflexivity|].
    rewrite walk_files_app, map_app, IHes. f_equal.
    destruct child as [f | sub]; [reflexivity|].
    simpl is_dir. cbv iota. cbn [snd] in Hchild. rewrite Hchild, map_map.
    apply map_ext. intros [cs f]. reflexivity.
Qed.

Lemma tree_files_Dir_cons name child es :
  Permutation (tree_files (Dir ((name, child) :: es)))
              (entry_files (name, child) ++ tree_files (Dir es)).
Proof.
  destruct child as [f | sub].
  - apply Permutation_refl'. reflexivity.
  - cbn [tree_files nondirs is_dir entry_files snd fst].
    apply Permutation_app_swap_app.
Qed.

Lemma tree_files_entries es :
  Permutation (tree_files (Dir es)) (flat_map entry_files es).
Proof.
  induction es as [|[name child] es IH]; [apply Permutation_refl|].
  rewrite tree_files_Dir_cons. simpl flat_map.
  apply Permutation_app_head, IH.
Qed.

Lemma wf_node_Dir_cons name child es :
  wf_node (Dir ((name, child) :: es)) = true ->
  valid_name name = true /\ wf_node child = true
  /\ ~ In name (map fst es) /\ wf_node (Dir es) = true.
Proof.
  cbn [wf_node nodupb map fst]. rewrite !andb_true_iff, negb_true_iff.
  intros [[Hn Hnd] [[Hv Hc] Hes]].
  split; [exact Hv|]. split; [exact Hc|]. split.
  - intros Hin. apply not_true_iff_false in Hn. apply Hn.
    apply existsb_exists. exists name. split; [exact Hin | apply String.eqb_refl].
  - split; assumption.
Qed.

(** In a well-formed tree every file is reached by a non-empty list of
    valid names. *)
Lemma tree_files_valid n :
  wf_node n = true ->
  forall cs f, In (cs, f) (tree_files n) ->
               cs <> [] /\ Forall (fun c => valid_name c = true) cs.
Proof.
  induction n as [f0 | es IH] using node_ind'; intros Hwf cs f Hin;
    [destruct Hin|].
  apply (Permutation_in _ (tree_files_entries es)) in Hin.
  induction IH as [|[name child] es' Hchild _ IHes]; [destruct Hin|].
  apply wf_node_Dir_cons in Hwf as (Hv & Hc & _ & Hes).
  simpl flat_map in Hin. apply in_app_iff in Hin as [Hin | Hin].
  - unfold entry_files in Hin. simpl in Hin, Hchild.
    destruct child as [f1 | sub].
    + destruct Hin as [[= <- <-] | []]. split; [discriminate|]. repeat constructor. exact Hv.
    + apply in_map_iff in Hin as ([cs' f'] & [= <- <-] & Hin').
      destruct (Hchild Hc cs' f' Hin') as [_ Hall].
      split; [discriminate|]. constructor; assumption.
  - apply IHes; assumption.
Qed.





End TreeFacts.

(* ===================================================================== *)
(** * collect_connections: the claim                                  *)
(* ===================================================================== *)

Module ConnectionsClaims.
Import Connections.
Local Open Scope string_scope.

Example pid_1234 : fmt_pid (Some 1234%Z) = "1234".
Proof. reflexivity. Qed.

(** C10. A socket owned by process 0 gets the empty string in its [pid]
    field, as a socket without owner does.  [collect_connections]
    returns one record per socket, in order: at the place of the pid-0
    socket the result holds the record with the empty [pid] field, the
    same record a socket without pid gets there, so the two outputs are
    equal. *)
Theorem C10_pid_zero_recorded_as_empty
    (l r : option (string * Z)) (s : string) (before after : list sconn) :
  conn_record (SConn (Some 0%Z) l r s)
  = [("pid", ""); ("local_address", fmt_addr l);
     ("remote_address", fmt_addr r); ("status", s)]
  /\ conn_record (SConn (Some 0%Z) l r s) = conn_record (SConn None l r s)
  /\ collect_connections (before ++ SConn (Some 0%Z) l r s :: after)%list
     = collect_connections (before ++ SConn None l r s :: after)%list
  /\ collect_connections (before ++ SConn (Some 0%Z) l r s :: after)%list
     = (collect_connections before
        ++ [("pid", ""); ("local_address", fmt_addr l);
            ("remote_address", fmt_addr r); ("status", s)]
        :: collect_connections after)%list
  /\ nth_error (collect_connections (before ++ SConn (Some 0%Z) l r s :: after)%list)
               (length before)
     = Some [("pid", ""); ("local_address", fmt_addr l);
             ("remote_address", fmt_addr r); ("status", s)]
  /\ nth_error (collect_connections (before ++ SConn None l r s :: after)%list)
               (length before)
     = Some [("pid", ""); ("local_address", fmt_addr l);
             ("remote_address", fmt_addr r); ("status", s)]
  /\ length (collect_connections (before ++ SConn (Some 0%Z) l r s :: after)%list)
     = length before + 1 + length after.
Proof.
  assert (Hnth : forall c,
             nth_error (collect_connections (before ++ c :: after)%list) (length before)
             = Some (conn_record c)).
  { intros c. unfold collect_connections. rewrite map_app.
    rewrite nth_error_app2 by (rewrite length_map; lia).
    rewrite length_map, Nat.sub_diag. reflexivity. }
  split; [reflexivity|]. split; [reflexivity|].
  split; [unfold collect_connections; rewrite !map_app; reflexivity|].
  split; [unfold collect_connections; rewrite map_app; reflexivity|].
  split; [apply (Hnth (SConn (Some 0%Z) l r s))|].
  split; [apply (Hnth (SConn None l r s))|].
  unfold collect_connections. rewrite length_map, length_app. simpl. lia.
Qed.

Example pid_zero_in_the_output :
  collect_connections
    [SConn (Some 812%Z) (Some ("0.0.0.0", 22%Z)) None "LISTEN";
     SConn (Some 0%Z) (Some ("10.0.0.5", 22%Z)) (Some ("10.0.0.9", 51000%Z)) "TIME_WAIT";
     SConn None (Some ("10.0.0.5", 22%Z)) (Some ("10.0.0.9", 51000%Z)) "TIME_WAIT"]
  = [[("pid", "812"); ("local_address", "0.0.0.0:22");
      ("remote_address", ""); ("status", "LISTEN")];
     [("pid", ""); ("local_address", "10.0.0.5:22");
      ("remote_address", "10.0.0.9:51000"); ("status", "TIME_WAIT")];
     [("pid", ""); ("local_address", "10.0.0.5:22");
      ("remote_address", "10.0.0.9:51000"); ("status", "TIME_WAIT")]].
Proof. reflexivity. Qed.

End ConnectionsClaims.

(* ===================================================================== *)
(** * hash_files: facts and claims                                    *)
(* ===================================================================== *)

Module HashFilesFacts.
Import Fs HashFiles PyFacts FsFacts Sha256Facts.

(** A stream that was hashed to the end was hashed right, whatever the
    chunk size. *)
Lemma hash_stream_digest n f d :
  1 <= n ->
  hash_stream n f = Return d ->
  d = Sha256.sha256_hex (content f).
Proof.
  intros Hn. unfold hash_stream, open_rb.
  destruct (fault f) eqn:F; try discriminate.
  - destruct (read_loop _ _ _ _ _ _) as [o|e] eqn:R; [|discriminate].
    intros [= <-]. apply read_loop_return in R as (chunks & Hcat & ->); [|exact Hn].
    rewrite hexdigest_chunks, Hcat. reflexivity.
  - destruct (read_loop _ _ _ _ _ _) as [o|e'] eqn:R; [|discriminate].
    intros [= <-]. apply read_loop_return in R as (chunks & Hcat & ->); [|exact Hn].
    rewrite hexdigest_chunks, Hcat. reflexivity.
Qed.

Lemma hash_stream_nofault n f :
  1 <= n ->
  fault f = NoFault ->
  hash_stream n f = Return (Sha256.sha256_hex (content f)).
Proof.
  intros Hn F.
  destruct (hash_stream n f) as [d|e] eqn:H.
  - f_equal. eapply hash_stream_digest; eassumption.
  - exfalso. unfold hash_stream, open_rb in H. rewrite F in H.
    destruct (read_loop _ _ _ _ _ _) as [o|e'] eqn:R; [discriminate|].
    apply read_loop_raise in R as [k Hk]. congruence.
Qed.

(** What a stream raises is what the file's fault carries. *)
Lemma hash_stream_raise n f e :
  hash_stream n f = Raise e ->
  fault f = OpenRaises e \/ exists k, fault f = ReadRaises k e.
Proof.
  unfold hash_stream, open_rb. destruct (fault f) eqn:F.
  - destruct (read_loop _ _ _ _ _ _) as [o|e'] eqn:R; [discriminate|].
    apply read_loop_raise in R as [k Hk]. congruence.
  - intros [= ->]. left. reflexivity.
  - destruct (read_loop _ _ _ _ _ _) as [o|e'] eqn:R; [discriminate|].
    intros [= ->]. apply read_loop_raise in R as [k' Hk]. right. exists k'. congruence.
Qed.

Lemma chunk_size_pos : 1 <= chunk_size.
Proof. unfold chunk_size. apply Nat.neq_0_lt_0, Nat.pow_nonzero. discriminate. Qed.

(** The [try] statement, case by case. *)
Lemma hash_one_eq path f st :
  hash_one path f st
  = match hash_stream chunk_size f with
    | Return d =>
        (Return tt, State (hashes st ++ [hash_record path d]) (log_entries st))
    | Raise e =>
        if caught_by [PermissionError; OSError] e
        then (Return tt, State (hashes st) (log_entries st ++ [failed_line path e]))
        else (Raise e, st)
    end.
Proof.
  unfold hash_one, try_except, bind, lift.
  destruct (hash_stream chunk_size f) as [d|e]; reflexivity.
Qed.

(** The nested loops visit the events of the run, in order. *)
Lemma hash_target_events fs target st :
  hash_target fs target st = for_each (target_events fs target) step st.
Proof.
  unfold hash_target, target_events, exists_.
  destruct (fs target) as [n|]; simpl; [|reflexivity].
  rewrite for_each_map. unfold walk_files. rewrite for_each_flat_map.
  apply for_each_ext. intros [[root dirs] files] s _.
  unfold hash_dir_files. rewrite for_each_map.
  apply for_each_ext. intros [fname f] s' _. reflexivity.
Qed.

Lemma hash_files_loop_events fs targets st :
  hash_files_loop fs targets st = for_each (events fs targets) step st.
Proof.
  unfold hash_files_loop, events. rewrite for_each_flat_map.
  apply for_each_ext. intros target s _. apply hash_target_events.
Qed.

End HashFilesFacts.

Module HashFilesClaims.
Import Fs HashFiles PyFacts FsFacts Sha256Facts HashFilesFacts StringFacts.

Lemma step_keeps_records_ok evs ev st :
  In ev evs ->
  (forall r, In r (hashes st) -> record_ok evs r) ->
  forall r, In r (hashes (snd (step ev st))) -> record_ok evs r.
Proof.
  intros Hev Hok r. destruct ev as [target | path f]; simpl.
  - apply Hok.
  - rewrite hash_one_eq. destruct (hash_stream chunk_size f) as [d|e] eqn:Hd.
    + simpl. rewrite in_app_iff. intros [Hr | [<- | []]]; [apply Hok, Hr|].
      pose proof (hash_stream_digest _ _ _ chunk_size_pos Hd) as ->.
      exists path, f. auto.
    + destruct (caught_by _ e); simpl; apply Hok.
Qed.

Lemma hash_files_records_ok fs targets log hs log' :
  hash_files fs targets log = (Return hs, log') ->
  forall r, In r hs -> record_ok (events fs targets) r.
Proof.
  unfold hash_files. rewrite hash_files_loop_events.
  pose proof (for_each_invariant
                (fun st => forall r, In r (hashes st) -> record_ok (events fs targets) r)
                (events fs targets) step) as Hinv.
  specialize (Hinv (fun ev st Hev Hok => step_keeps_records_ok _ ev st Hev Hok)
                   (State [] log) (fun r (H : In r []) => match H with end)).
  destruct (for_each (events fs targets) step (State [] log)) as [[[]|e] st];
    [|discriminate].
  intros [= <- <-]. exact Hinv.
Qed.

(** [except (PermissionError, OSError)] catches exactly the instances of
    [OSError]. *)
Lemma caught_by_OSError e :
  caught_by [PermissionError; OSError] e = isinstance e OSError.
Proof. destruct e as [[] msg]; reflexivity. Qed.

(** A run that returns has added one record per file read to the end
    and one line per missing target or failed file, in order. *)
Lemma run_events_return evs :
  forall st st',
    for_each evs step st = (Return tt, st') ->
    hashes st' = hashes st ++ omap record_of evs
    /\ log_entries st' = log_entries st ++ omap line_of evs.
Proof.
  induction evs as [|ev evs IH]; intros st st'; simpl.
  - intros [= <-]. rewrite !app_nil_r. auto.
  - unfold bind. destruct (step ev st) as [[[]|e] st1] eqn:Hstep; [|discriminate].
    intros Hrest. apply IH in Hrest as [-> ->].
    destruct ev as [target | path f]; simpl in Hstep |- *.
    + injection Hstep as <-. simpl. rewrite <- app_assoc. auto.
    + rewrite hash_one_eq in Hstep.
      destruct (hash_stream chunk_size f) as [d|e].
      * injection Hstep as <-. simpl. rewrite <- app_assoc. auto.
      * destruct (caught_by _ e); [|discriminate].
        injection Hstep as <-. simpl. rewrite <- app_assoc. auto.
Qed.

(** When every failure is an [OSError], every step returns. *)
Lemma run_events_total evs :
  (forall path f e,
      In (Visit path f) evs ->
      hash_stream chunk_size f = Raise e -> isinstance e OSError = true) ->
  forall st, fst (for_each evs step st) = Return tt.
Proof.
  intros Hos. apply for_each_returns. intros [target | path f] st Hin; simpl.
  - reflexivity.
  - rewrite hash_one_eq. destruct (hash_stream chunk_size f) as [d|e] eqn:Hd.
    + reflexivity.
    + rewrite caught_by_OSError, (Hos path f e Hin Hd). reflexivity.
Qed.

Lemma missing_loop fs targets :
  (forall t, In t targets -> exists_ fs t = false) ->
  forall st,
    hash_files_loop fs targets st
    = (Return tt, State (hashes st) (log_entries st ++ map missing_line targets)).
Proof.
  unfold hash_files_loop.
  induction targets as [|t targets IH]; intros Hmiss st; simpl.
  - rewrite app_nil_r. destruct st; reflexivity.
  - unfold bind, hash_target. rewrite (Hmiss t (or_introl eq_refl)). simpl.
    rewrite IH by (intros t' Ht'; apply Hmiss; right; exact Ht').
    simpl. rewrite <- app_assoc. reflexivity.
Qed.

(** C1. On every run of [hash_files] that returns: each record returned
    was made from a file the walk reached and read without error, and
    its digest field is the SHA-256 of that file's bytes, 64 lowercase
    hexadecimal characters; and each file reached and read without
    error has its record in the result.  The run does return when no
    read fails with anything but an [OSError].  For any chunk size
    [n >= 1] a file read to the end in chunks of [n] bytes gets the
    digest of its whole byte stream, as any cut of the stream does, and
    a file without I/O fault is always read to the end. *)
Theorem C1_digest_is_sha256_of_stream
    (fs : filesystem) (targets : list string) (log : list string)
    (n : nat) (f : file) :
  1 <= n ->
  (forall hs log',
      hash_files fs targets log = (Return hs, log') ->
      (forall r, In r hs ->
         exists path f0,
           In (Visit path f0) (events fs targets)
           /\ hash_stream chunk_size f0 = Return (Sha256.sha256_hex (content f0))
           /\ r = [("file", path); ("sha256", Sha256.sha256_hex (content f0))]%string
           /\ String.length (Sha256.sha256_hex (content f0)) = 64
           /\ forallb Sha256.is_lower_hex
                (list_ascii_of_string (Sha256.sha256_hex (content f0))) = true)
      /\ (forall path f0 d,
            In (Visit path f0) (events fs targets) ->
            hash_stream chunk_size f0 = Return d ->
            d = Sha256.sha256_hex (content f0)
            /\ In [("file", path); ("sha256", d)]%string hs))
  /\ ((forall path f0 e,
         In (Visit path f0) (events fs targets) ->
         hash_stream chunk_size f0 = Raise e -> isinstance e OSError = true) ->
      exists hs log', hash_files fs targets log = (Return hs, log'))
  /\ (forall d, hash_stream n f = Return d ->
                d = Sha256.sha256_hex (content f))
  /\ (forall chunks, concat chunks = content f ->
        Sha256.hexdigest (fold_left Sha256.update chunks Sha256.new)
        = Sha256.sha256_hex (content f))
  /\ (fault f = NoFault ->
      hash_stream n f = Return (Sha256.sha256_hex (content f))).
Proof.
  intros Hn. split; [|split; [|split; [|split]]].
  - intros hs log' Hrun. split.
    + intros r Hr.
      destruct (hash_files_records_ok _ _ _ _ _ Hrun r Hr)
        as (path & f0 & Hin & Hd & ->).
      exists path, f0. repeat split; try assumption.
      * apply hex_of_hstate_length.
      * apply hex_of_hstate_lower.
    + intros path f0 d Hin Hd.
      split; [exact (hash_stream_digest _ _ _ chunk_size_pos Hd)|].
      unfold hash_files in Hrun. rewrite hash_files_loop_events in Hrun.
      destruct (for_each (events fs targets) step (State [] log))
        as [[[]|e] st] eqn:Hloop; [|discriminate].
      injection Hrun as <- _.
      apply run_events_return in Hloop as [-> _]. simpl.
      apply list_elem_of_In, list_elem_of_omap. exists (Visit path f0).
      split; [apply list_elem_of_In, Hin|]. simpl. rewrite Hd. reflexivity.
  - intros Hos. unfold hash_files. rewrite hash_files_loop_events.
    pose proof (run_events_total (events fs targets) Hos (State [] log)) as Hret.
    destruct (for_each (events fs targets) step (State [] log)) as [[[]|e] st];
      [|discriminate].
    eexists. eexists. reflexivity.
  - intros d. apply hash_stream_digest. exact Hn.
  - intros chunks <-. apply hexdigest_chunks.
  - apply hash_stream_nofault. exact Hn.
Qed.

(** C3. When no target exists, [hash_files] returns the empty list
    without raising and appends to the caller's log exactly one line
    per target, in order, each containing the target's path; on the
    empty target list the log is left as it was. *)
Theorem C3_missing_targets_logged
    (fs : filesystem) (targets : list string) (log : list string) :
  (forall t, In t targets -> exists_ fs t = false) ->
  hash_files fs targets log = (Return [], log ++ map missing_line targets)
  /\ length (map missing_line targets) = length targets
  /\ Forall2 contains (map missing_line targets) targets
  /\ hash_files fs [] log = (Return [], log).
Proof.
  intros Hmiss. repeat split.
  - unfold hash_files. rewrite missing_loop by exact Hmiss. reflexivity.
  - apply length_map.
  - clear Hmiss. induction targets as [|t targets IH]; simpl; constructor.
    + apply contains_suffix.
    + exact IH.
Qed.

(** C2, as the code has it. A target that exists and is a regular file
    adds nothing: no record and no log line, and the run is the one
    without that target. *)
Theorem C2_file_target_adds_nothing
    (fs : filesystem) (target : string) (f : file)
    (pre post : list string) (log : list string) :
  fs target = Some (Reg f) ->
  (forall st, hash_target fs target st = (Return tt, st))
  /\ hash_files fs (pre ++ target :: post) log = hash_files fs (pre ++ post) log.
Proof.
  intros Hreg.
  assert (Hstep : forall st, hash_target fs target st = (Return tt, st)).
  { intros st. unfold hash_target, exists_. rewrite Hreg. reflexivity. }
  split; [exact Hstep|].
  unfold hash_files, hash_files_loop. rewrite !for_each_app. unfold bind.
  destruct (for_each pre (hash_target fs) (State [] log)) as [[[]|e] st];
    [|reflexivity].
  rewrite (for_each_cons_return _ _ _ _ _ (Hstep st)). reflexivity.
Qed.

(** C4. A file whose [open] or [read] raises an [OSError] (a
    [PermissionError], say) does not stop the function: its step
    returns, having appended one line that contains the file's path and
    the error's text and no record, and the loop goes on with the next
    file of the directory; when every failure of the run is of that
    kind, [hash_files] itself returns. *)
Theorem C4_io_error_logged_and_skipped
    (path : string) (f : file) (e : exc) :
  hash_stream chunk_size f = Raise e ->
  isinstance e OSError = true ->
  (forall st,
      hash_one path f st
      = (Return tt,
         State (hashes st) (log_entries st ++ [failed_line path e])))
  /\ contains (failed_line path e) path
  /\ contains (failed_line path e) (exc_str e)
  /\ (forall root fname rest st,
        path = PosixPath.join root fname ->
        hash_dir_files root ((fname, f) :: rest) st
        = hash_dir_files root rest
            (State (hashes st) (log_entries st ++ [failed_line path e])))
  /\ (forall fs targets log,
        (forall p f' e',
            In (Visit p f') (events fs targets) ->
            hash_stream chunk_size f' = Raise e' ->
            isinstance e' OSError = true) ->
        hash_files fs targets log
        = (Return (omap record_of (events fs targets)),
           log ++ omap line_of (events fs targets))).
Proof.
  intros Hraise Hos.
  assert (Hstep : forall st,
             hash_one path f st
             = (Return tt,
                State (hashes st) (log_entries st ++ [failed_line path e]))).
  { intros st. rewrite hash_one_eq, Hraise, caught_by_OSError, Hos. reflexivity. }
  split; [exact Hstep|]. split; [|split; [|split]].
  - apply contains_middle.
  - unfold failed_line. rewrite <- !str_app_assoc. apply contains_suffix.
  - intros root fname rest st ->. unfold hash_dir_files.
    apply for_each_cons_return. apply Hstep.
  - intros fs targets log Hall. unfold hash_files.
    rewrite hash_files_loop_events.
    pose proof (run_events_total _ Hall (State [] log)) as Hret.
    destruct (for_each (events fs targets) step (State [] log)) as [o st] eqn:Hrun.
    simpl in Hret. subst o.
    apply run_events_return in Hrun as [-> ->]. reflexivity.
Qed.


(** Scenario A of the specification, with an unreadable file below the
    target and a missing target after it. *)
Example scenario_A :
  hash_files Demo.demo_fs ["/data"; "/no/such/dir"]%string []
  = (Return [Demo.hello_record; Demo.world_record],
     [Demo.locked_line; "Target path not found: /no/such/dir"%string]).
Proof. vm_compute. reflexivity. Qed.

(** A read that fails after the first chunk leaves no record either. *)
Example bad_sector_fails :
  hash_one "/mnt/disk.img" Demo.bad_sector (State [] [])
  = (Return tt,
     State [] ["Failed to hash /mnt/disk.img: [Errno 5] Input/output error"%string]).
Proof. vm_compute. reflexivity. Qed.

Lemma C1_witness :
  hash_files Demo.demo_fs ["/data"%string] []
  = (Return [Demo.hello_record; Demo.world_record], [Demo.locked_line])
  /\ (forall r, In r [Demo.hello_record; Demo.world_record] ->
        exists path f0,
          In (Visit path f0) (events Demo.demo_fs ["/data"%string])
          /\ hash_stream chunk_size f0 = Return (Sha256.sha256_hex (content f0))
          /\ r = [("file", path); ("sha256", Sha256.sha256_hex (content f0))]%string
          /\ String.length (Sha256.sha256_hex (content f0)) = 64
          /\ forallb Sha256.is_lower_hex
               (list_ascii_of_string (Sha256.sha256_hex (content f0))) = true)
  /\ (forall path f0 d,
        In (Visit path f0) (events Demo.demo_fs ["/data"%string]) ->
        hash_stream chunk_size f0 = Return d ->
        d = Sha256.sha256_hex (content f0)
        /\ In [("file", path); ("sha256", d)]%string
              [Demo.hello_record; Demo.world_record])
  /\ (exists hs log',
        hash_files Demo.demo_fs ["/data"%string] [] = (Return hs, log'))
  /\ (forall d, hash_stream 3 Demo.b_txt = Return d ->
                d = Sha256.sha256_hex (content Demo.b_txt))
  /\ (forall chunks, concat chunks = content Demo.b_txt ->
        Sha256.hexdigest (fold_left Sha256.update chunks Sha256.new)
        = Sha256.sha256_hex (content Demo.b_txt))
  /\ (fault Demo.b_txt = NoFault ->
      hash_stream 3 Demo.b_txt = Return (Sha256.sha256_hex (content Demo.b_txt))).
Proof.
  assert (Hrun : hash_files Demo.demo_fs ["/data"%string] []
                 = (Return [Demo.hello_record; Demo.world_record],
                    [Demo.locked_line]))
    by (vm_compute; reflexivity).
  destruct (C1_digest_is_sha256_of_stream Demo.demo_fs ["/data"%string] []
              3 Demo.b_txt) as (Hany & Hret & Hcut & Hchunks & Hclean); [lia|].
  destruct (Hany _ _ Hrun) as [Hsound Hcomplete].
  split; [exact Hrun|]. split; [exact Hsound|]. split; [exact Hcomplete|].
  split.
  - apply Hret. intros path f0 e Hin Hraise. simpl in Hin.
    repeat (destruct Hin as [Hv | Hin];
            [injection Hv as <- <-; vm_compute in Hraise;
             first [discriminate Hraise
                   | injection Hraise as <-; reflexivity]|]).
    destruct Hin.
  - split; [exact Hcut|]. split; [exact Hchunks | exact Hclean].
Defined.

(** The claim as the specification words it fails on [/data/a.txt],
    which exists, is a regular file and can be read: no record comes
    out. *)
Lemma C2_counterexample :
  Demo.demo_fs "/data/a.txt"%string = Some (Reg Demo.a_txt)
  /\ hash_stream chunk_size Demo.a_txt
     = Return "2cf24dba5fb0a30e26e83b2ac5b9e29e1b161e5c1fa7425e73043362938b9824"%string
  /\ hash_files Demo.demo_fs ["/data/a.txt"%string] [] = (Return [], [])
  /\ ~ (exists r, fst (hash_files Demo.demo_fs ["/data/a.txt"%string] [])
                  = Return [r]).
Proof.
  split; [reflexivity|]. split; [vm_compute; reflexivity|].
  split; [vm_compute; reflexivity|].
  intros [r Hr]. vm_compute in Hr. discriminate Hr.
Qed.

Lemma C2_witness :
  (forall st, hash_target Demo.demo_fs "/data/a.txt"%string st = (Return tt, st))
  /\ hash_files Demo.demo_fs (["/data"] ++ "/data/a.txt" :: ["/nope"]) []
     = hash_files Demo.demo_fs (["/data"] ++ ["/nope"]) [].
Proof.
  apply (C2_file_target_adds_nothing Demo.demo_fs "/data/a.txt"%string Demo.a_txt).
  reflexivity.
Defined.

Lemma C3_witness :
  hash_files Demo.demo_fs ["/no/such/dir"; "/nope"]%string ["earlier"%string]
  = (Return [],
     ["earlier"%string] ++ map missing_line ["/no/such/dir"; "/nope"]%string)
  /\ length (map missing_line ["/no/such/dir"; "/nope"]%string) = length ["/no/such/dir"; "/nope"]%string
  /\ Forall2 contains (map missing_line ["/no/such/dir"; "/nope"]%string)
                      ["/no/such/dir"; "/nope"]%string
  /\ hash_files Demo.demo_fs [] ["earlier"%string] = (Return [], ["earlier"%string]).
Proof.
  apply (C3_missing_targets_logged Demo.demo_fs ["/no/such/dir"; "/nope"]%string).
  intros t [<- | [<- | []]]; reflexivity.
Defined.

Lemma C4_witness :
  let path := "/data/sub/locked"%string in
  let e := Exc PermissionError "[Errno 13] Permission denied: '/data/sub/locked'" in
  (forall st,
      hash_one path Demo.locked st
      = (Return tt,
         State (hashes st) (log_entries st ++ [failed_line path e])))
  /\ contains (failed_line path e) path
  /\ contains (failed_line path e) (exc_str e)
  /\ (forall root fname rest st,
        path = PosixPath.join root fname ->
        hash_dir_files root ((fname, Demo.locked) :: rest) st
        = hash_dir_files root rest
            (State (hashes st) (log_entries st ++ [failed_line path e])))
  /\ (forall fs targets log,
        (forall p f' e',
            In (Visit p f') (events fs targets) ->
            hash_stream chunk_size f' = Raise e' ->
            isinstance e' OSError = true) ->
        hash_files fs targets log
        = (Return (omap record_of (events fs targets)),
           log ++ omap line_of (events fs targets))).
Proof.
  apply (C4_io_error_logged_and_skipped "/data/sub/locked"%string Demo.locked
           (Exc PermissionError "[Errno 13] Permission denied: '/data/sub/locked'")).
  - vm_compute. reflexivity.
  - reflexivity.
Defined.

End HashFilesClaims.

(* ===================================================================== *)
(** * write_csv: the claims                                           *)
(* ===================================================================== *)

Module WriteCsvClaims.
Import WriteCsv PyFacts.

Lemma mem_in x l : In x l -> mem x l = true.
Proof.
  intros Hin. unfold mem. apply existsb_exists. exists x.
  split; [exact Hin | apply String.eqb_refl].
Qed.

(** A record has no key outside its own keys. *)
Lemma wrong_fields_self (d : list (string * string)) :
  wrong_fields (map fst d) d = [].
Proof.
  unfold wrong_fields.
  assert (H : forall l, (forall k, In k l -> In k (map fst d)) ->
                        filter (fun k => mem k (map fst d) = false) l = []).
  { induction l as [|k l IH]; intros Hsub; [reflexivity|].
    rewrite filter_cons. destruct (decide _) as [Hk|_].
    - rewrite mem_in in Hk by (apply Hsub; left; reflexivity). discriminate.
    - apply IH. intros k' Hk'. apply Hsub. right. exact Hk'. }
  apply H. auto.
Qed.

Lemma write_line_ok path row (disk : gmap string csv_file) :
  forallb Text.utf8_valid row = true ->
  write_line path row disk
  = (Return tt, <[path := default [] (disk !! path) ++ [row]]> disk).
Proof.
  intros Henc. unfold write_line, bind, lift, encode_row. rewrite Henc. reflexivity.
Qed.

Lemma write_line_unencodable path row (disk : gmap string csv_file) :
  forallb Text.utf8_valid row = false ->
  write_line path row disk = (Raise Text.surrogates_not_allowed, disk).
Proof.
  intros Henc. unfold write_line, bind, lift, encode_row. rewrite Henc. reflexivity.
Qed.

Lemma writerow_ok fieldnames path rowdict (disk : gmap string csv_file) :
  wrong_fields fieldnames rowdict = [] ->
  forallb Text.utf8_valid (row_of fieldnames rowdict) = true ->
  writerow fieldnames path rowdict disk
  = (Return tt,
     <[path := default [] (disk !! path) ++ [row_of fieldnames rowdict]]> disk).
Proof.
  intros Hok Henc. unfold writerow, bind, lift, dict_to_list. rewrite Hok.
  apply write_line_ok, Henc.
Qed.

Lemma writerow_unencodable fieldnames path rowdict (disk : gmap string csv_file) :
  wrong_fields fieldnames rowdict = [] ->
  forallb Text.utf8_valid (row_of fieldnames rowdict) = false ->
  writerow fieldnames path rowdict disk = (Raise Text.surrogates_not_allowed, disk).
Proof.
  intros Hok Henc. unfold writerow, bind, lift, dict_to_list. rewrite Hok.
  apply write_line_unencodable, Henc.
Qed.

Lemma writerow_wrong fieldnames path rowdict (disk : gmap string csv_file) :
  wrong_fields fieldnames rowdict <> [] ->
  exists msg,
    writerow fieldnames path rowdict disk = (Raise (Exc ValueError msg), disk).
Proof.
  intros Hbad. unfold writerow, bind, lift, dict_to_list.
  destruct (wrong_fields fieldnames rowdict) as [|k ks]; [congruence|].
  eexists. reflexivity.
Qed.

Lemma writerows_ok fieldnames path rows :
  Forall (fun r => wrong_fields fieldnames r = []
                   /\ forallb Text.utf8_valid (row_of fieldnames r) = true) rows ->
  forall (disk : gmap string csv_file) acc,
    disk !! path = Some acc ->
    for_each rows (writerow fieldnames path) disk
    = (Return tt, <[path := acc ++ map (row_of fieldnames) rows]> disk).
Proof.
  induction 1 as [|r rows [Hr Henc] _ IH]; intros disk acc Hacc; simpl.
  - rewrite app_nil_r, insert_id by exact Hacc. reflexivity.
  - unfold bind. rewrite writerow_ok by assumption. rewrite Hacc. simpl.
    rewrite (IH _ (acc ++ [row_of fieldnames r])) by apply lookup_insert_eq.
    rewrite insert_insert_eq, <- app_assoc. reflexivity.
Qed.

(** After [open] and [writeheader] the file holds the header alone,
    when the header can be encoded. *)
Lemma header_written path fieldnames (k : M (gmap string csv_file) unit)
    (disk : gmap string csv_file) :
  forallb Text.utf8_valid fieldnames = true ->
  (modify (fun d => <[path := []]> d) ;; write_line path fieldnames ;; k)%py disk
  = k (<[path := [fieldnames]]> disk).
Proof.
  intros Henc. unfold bind at 1. unfold modify. cbv beta iota.
  unfold bind. rewrite write_line_ok by exact Henc.
  rewrite lookup_insert_eq, insert_insert_eq. reflexivity.
Qed.


(** Uniform records: the header, then one row per record, in order. *)
Lemma write_csv_uniform open_fault first rest path (disk : gmap string csv_file) :
  open_fault path = None ->
  forallb Text.utf8_valid (map fst first) = true ->
  forallb Text.utf8_valid (row_of (map fst first) first) = true ->
  Forall (fun r => wrong_fields (map fst first) r = []
                   /\ forallb Text.utf8_valid (row_of (map fst first) r) = true)
         rest ->
  write_csv open_fault (first :: rest) path disk
  = (Return tt,
     <[path := map fst first
               :: map (row_of (map fst first)) (first :: rest)]> disk).
Proof.
  intros Hopen Hhead Hfirst Hrest. unfold write_csv. rewrite Hopen.
  rewrite header_written by exact Hhead.
  rewrite (writerows_ok _ _ (first :: rest)) with (acc := [map fst first]).
  - rewrite insert_insert_eq. reflexivity.
  - constructor; [split; [apply wrong_fields_self | exact Hfirst] | exact Hrest].
  - apply lookup_insert_eq.
Qed.

(** C5, as the code has it. When a later record has a key that the
    first record lacks, [write_csv] writes the header made of the first
    record's keys and one row for each record before the offending one,
    in order, and then raises [ValueError]: the extra key is not
    ignored.  The header and the rows written are taken to be text that
    UTF-8 can encode. *)
Theorem C5_extra_key_raises
    (open_fault : string -> option exc)
    (first : list (string * string))
    (good : list (list (string * string)))
    (bad : list (string * string))
    (tail : list (list (string * string)))
    (path : string) (disk : gmap string csv_file) :
  open_fault path = None ->
  forallb Text.utf8_valid (map fst first) = true ->
  Forall (fun r => forallb Text.utf8_valid (row_of (map fst first) r) = true)
         (first :: good) ->
  Forall (fun r => wrong_fields (map fst first) r = []) good ->
  wrong_fields (map fst first) bad <> [] ->
  exists msg,
    write_csv open_fault (first :: good ++ bad :: tail) path disk
    = (Raise (Exc ValueError msg),
       <[path := map fst first
                 :: map (row_of (map fst first)) (first :: good)]> disk).
Proof.
  intros Hopen Hhead Henc Hgood Hbad. unfold write_csv. rewrite Hopen.
  rewrite header_written by exact Hhead.
  change (first :: good ++ bad :: tail) with ((first :: good) ++ bad :: tail).
  rewrite for_each_app. unfold bind at 1.
  rewrite (writerows_ok _ _ (first :: good)) with (acc := [map fst first]).
  - rewrite insert_insert_eq. simpl for_each. unfold bind.
    match goal with
    | |- context [writerow ?fn ?p ?r ?d] =>
        destruct (writerow_wrong fn p r d Hbad) as [msg ->]
    end.
    exists msg. reflexivity.
  - inversion Henc as [|? ? Hfirst Hgenc]; subst.
    constructor; [split; [apply wrong_fields_self | exact Hfirst]|].
    clear -Hgood Hgenc. induction Hgood as [|r rs Hr _ IH];
      [apply Stdlib.Lists.List.Forall_nil|].
    inversion Hgenc; subst.
    apply Stdlib.Lists.List.Forall_cons; [split; assumption | apply IH; assumption].
  - apply lookup_insert_eq.
Qed.

(** C9. On the empty list [write_csv] returns at once: nothing is
    opened and the disk is exactly what it was. *)
Theorem C9_empty_rows_write_nothing
    (open_fault : string -> option exc) (path : string)
    (disk : gmap string csv_file) :
  write_csv open_fault [] path disk = (Return tt, disk)
  /\ snd (write_csv open_fault [] path disk) !! path = disk !! path.
Proof. split; reflexivity. Qed.


Example uniform_rows :
  snd (write_csv Demo.always_opens [Demo.row_a; Demo.row_b] "hashes.csv" ∅)
  !! "hashes.csv"%string
  = Some [["file"; "sha256"]; ["/data/a.txt"; "2cf2"]; ["/data/b.txt"; "486e"]]%string.
Proof. vm_compute. reflexivity. Qed.

(** The claim as the specification words it fails on a second record
    with the extra key [size]: [write_csv] raises instead of writing
    its row. *)
Lemma C5_counterexample :
  wrong_fields (map fst Demo.row_a) Demo.row_extra = ["size"%string]
  /\ fst (write_csv Demo.always_opens [Demo.row_a; Demo.row_extra] "hashes.csv" ∅)
     = Raise (Exc ValueError "dict contains fields not in fieldnames: 'size'")
  /\ snd (write_csv Demo.always_opens [Demo.row_a; Demo.row_extra] "hashes.csv" ∅)
     !! "hashes.csv"%string
     = Some [["file"; "sha256"]; ["/data/a.txt"; "2cf2"]]%string
  /\ ~ (exists disk',
          write_csv Demo.always_opens [Demo.row_a; Demo.row_extra] "hashes.csv" ∅
          = (Return tt, disk')).
Proof.
  split; [vm_compute; reflexivity|]. split; [vm_compute; reflexivity|].
  split; [vm_compute; reflexivity|].
  intros [disk' H]. apply (f_equal fst) in H. vm_compute in H. discriminate H.
Qed.

Lemma C5_witness :
  exists msg,
    write_csv Demo.always_opens
      (Demo.row_a :: [Demo.row_b] ++ Demo.row_extra :: [Demo.row_b])
      "hashes.csv" ∅
    = (Raise (Exc ValueError msg),
       <["hashes.csv"%string :=
           map fst Demo.row_a
           :: map (row_of (map fst Demo.row_a)) [Demo.row_a; Demo.row_b]]> ∅).
Proof.
  apply (C5_extra_key_raises Demo.always_opens Demo.row_a [Demo.row_b]
           Demo.row_extra [Demo.row_b] "hashes.csv"%string ∅).
  - reflexivity.
  - reflexivity.
  - repeat constructor.
  - repeat constructor.
  - vm_compute. discriminate.
Defined.

End WriteCsvClaims.

(* ===================================================================== *)
(** * compress_directory: the claim                                   *)
(* ===================================================================== *)

Module CompressClaims.
Import Fs PosixPath Compress PyFacts FsFacts StringFacts PathFacts TreeFacts.

Lemma valid_nosep cs :
  Forall (fun c => valid_name c = true) cs ->
  Forall (fun x => has_sep x = false) cs.
Proof.
  induction 1 as [|c cs Hc _ IH]; constructor; [|exact IH].
  apply valid_name_spec in Hc as (_ & H & _). exact H.
Qed.

Lemma valid_not_invalid cs :
  Forall (fun c => valid_name c = true) cs ->
  filter (fun x => invalid_path_part x = false) cs = cs.
Proof.
  induction 1 as [|c cs Hc _ IH]; [reflexivity|].
  rewrite filter_cons, IH. destruct (decide _) as [_|Hn]; [reflexivity|].
  exfalso. apply Hn. apply valid_name_spec in Hc as (H1 & _ & H3 & H4).
  unfold invalid_path_part. apply String.eqb_neq in H1, H3, H4.
  rewrite H1, H3, H4. reflexivity.
Qed.

Lemma lstrip_sep_not_abs s : startswith_sep s = false -> lstrip_sep s = s.
Proof. destruct s as [|c s]; [reflexivity|]. simpl. intros ->. reflexivity. Qed.

(** A relative path made of valid names is stored as it is. *)
Lemma zip_arcname_clean cs :
  cs <> [] ->
  Forall (fun c => valid_name c = true) cs ->
  zip_arcname (sep_join cs) = Return (sep_join cs).
Proof.
  intros Hne Hcs. destruct cs as [|c cs]; [congruence|].
  inversion Hcs as [|? ? Hc Hrest]; subst.
  pose proof (sep_join_not_abs c cs Hc) as Hrel.
  assert (Hnz : sep_join (c :: cs) <> ""%string).
  { apply valid_name_spec in Hc as (Hc & _).
    destruct cs; [exact Hc|]. rewrite sep_join_cons by discriminate.
    intros E. apply str_app_eq_nil in E as [E _]. contradiction. }
  assert (Hnorm : normpath (sep_join (c :: cs)) = sep_join (c :: cs)).
  { unfold normpath. apply String.eqb_neq in Hnz. rewrite Hnz.
    pose proof (initial_slashes_zero (sep_join (c :: cs))) as Hz.
    rewrite Hrel in Hz. apply Nat.eqb_eq in Hz. rewrite Hz.
    rewrite split_sep_join by (discriminate || apply valid_nosep, Hcs).
    rewrite fold_normpath_valid by exact Hcs. simpl app. rewrite Hnz. reflexivity. }
  unfold zip_arcname. rewrite Hnorm, lstrip_sep_not_abs by exact Hrel.
  destruct (sep_join (c :: cs)); [congruence | reflexivity].
Qed.

Lemma extract_name_clean cs :
  cs <> [] ->
  Forall (fun c => valid_name c = true) cs ->
  extract_name (sep_join cs) = sep_join cs.
Proof.
  intros Hne Hcs. unfold extract_name.
  rewrite split_sep_join by (assumption || apply valid_nosep, Hcs).
  rewrite valid_not_invalid by exact Hcs. reflexivity.
Qed.

(** A copy that ends normally copied the file's bytes. *)
Lemma read_whole_content f data :
  read_whole f = Return data -> data = content f.
Proof.
  unfold read_whole, copy_all, open_rb. destruct (fault f); try discriminate;
    intros H; apply read_loop_return in H as (chunks & Hcat & ->);
    try (unfold copy_chunk; apply Nat.neq_0_lt_0, Nat.pow_nonzero; discriminate);
    rewrite fold_left_app_concat; exact Hcat.
Qed.

Lemma storable_spec name f :
  storable name f = true ->
  zip_info (mtime_year f) = Return tt /\ file_header name (mtime_year f) = Return tt.
Proof.
  unfold storable, zip_info, file_header, Text.encode_utf8.
  intros H. apply andb_true_iff in H as [H Hlen].
  apply andb_true_iff in H as [H Henc]. apply andb_true_iff in H as [Hlo Hhi].
  apply Z.leb_le in Hlo, Hhi. apply N.leb_le in Hlen.
  destruct (Z.ltb_spec (mtime_year f) 1980); [lia|].
  rewrite Henc.
  destruct (Z.ltb_spec 2107 (mtime_year f)); [lia|].
  destruct (N.ltb_spec 65535 (N.of_nat (String.length name))); [lia|].
  auto.
Qed.

(** A storable file that can be opened gets as far as the copy. *)
Lemma zip_open_ok f arcname name :
  zip_arcname arcname = Return name ->
  storable name f = true ->
  zip_open f arcname
  = match open_rb f with
    | Return h => Return (name, h)
    | Raise e => Raise e
    end.
Proof.
  intros Harc Hst. destruct (storable_spec name f Hst) as [Hinfo Hhead].
  unfold zip_open. rewrite Harc, Hinfo.
  destruct (open_rb f); [rewrite Hhead|]; reflexivity.
Qed.

(** A storable file that can be read becomes a member with its bytes. *)
Lemma zip_write_ok f arcname name data (a : archive) :
  zip_arcname arcname = Return name ->
  storable name f = true ->
  read_whole f = Return data ->
  zip_write f arcname a = (Return tt, a ++ [(name, content f)]).
Proof.
  intros Harc Hst Hread.
  pose proof (read_whole_content f data Hread) as ->.
  unfold zip_write, bind, lift. rewrite (zip_open_ok f arcname name Harc Hst).
  unfold read_whole, copy_all in Hread.
  destruct (open_rb f) as [h|e]; [|discriminate].
  unfold modify. rewrite copy_loop_read_loop, Hread. reflexivity.
Qed.

(** A storable file that cannot be read gives its own error. *)
Lemma zip_write_unreadable f arcname name e (a : archive) :
  zip_arcname arcname = Return name ->
  storable name f = true ->
  read_whole f = Raise e ->
  fst (zip_write f arcname a) = Raise e.
Proof.
  intros Harc Hst Hread.
  unfold zip_write, bind, lift. rewrite (zip_open_ok f arcname name Harc Hst).
  unfold read_whole, copy_all in Hread.
  destruct (open_rb f) as [h|e']; [|injection Hread as ->; reflexivity].
  unfold modify. rewrite copy_loop_read_loop, Hread. reflexivity.
Qed.

(** A member, whole or cut short, carries the name its [arcname] was
    normalised to. *)
Lemma zip_write_names f arcname (a : archive) m :
  In m (snd (zip_write f arcname a)) ->
  In m a \/ zip_arcname arcname = Return (fst m).
Proof.
  unfold zip_write, bind, lift, zip_open, modify.
  destruct (zip_arcname arcname) as [name|]; [|auto].
  destruct (zip_info _); [|auto]. destruct (open_rb f) as [h|]; [|auto].
  destruct (file_header _ _); [|auto].
  destruct (copy_loop copy_chunk (fault h) 0 (content h) []) as [[[]|e] data];
    simpl; rewrite in_app_iff; (intros [H | [<- | []]]; [left; exact H | right; reflexivity]).
Qed.




(** The two loops of [compress_directory] visit the files of the tree. *)
Lemma compress_directory_tree cwd fs src_dir n a :
  fs src_dir = Some n ->
  compress_directory cwd fs src_dir a
  = for_each (tree_files n)
      (fun cf =>
         (rel_path <~ lift (relpath cwd (join_all src_dir (fst cf)) src_dir);
          zip_write (snd cf) rel_path)%py) a.
Proof.
  intros Hn. unfold compress_directory. rewrite Hn.
  rewrite <- (for_each_map (fun cf => (join_all src_dir (fst cf), snd cf))
                (tree_files n)
                (fun pf => (rel_path <~ lift (relpath cwd (fst pf) src_dir);
                            zip_write (snd pf) rel_path)%py)).
  rewrite <- walk_files_tree. unfold walk_files. rewrite for_each_flat_map.
  apply for_each_ext. intros [[root dirs] files] s _.
  rewrite for_each_map. apply for_each_ext. intros [fname f] s' _. reflexivity.
Qed.






Example session_archive :
  compress_directory "/home/ir" Demo.session_fs "output/20240101T000000Z" []
  = (Return tt,
     [("system_info.json"%string, list_byte_of_string "{}");
      ("hashes.csv"%string, list_byte_of_string "file,sha256");
      ("raw/log.txt"%string, list_byte_of_string "line")]).
Proof. vm_compute. reflexivity. Qed.


End CompressClaims.

(* ===================================================================== *)
(** * upload_to_s3: the claims                                        *)
(* ===================================================================== *)

Module UploadClaims.
Import Upload KeyFacts.
Import PosixPath (seps, has_sep).

Lemma upload_called b zip_path bucket prefix w :
  client_s3 b = Return tt ->
  calls (snd (upload_to_s3 (Some b) zip_path bucket prefix w))
  = calls w ++ [(zip_path, bucket, object_key zip_path prefix)].
Proof.
  intros Hc. unfold upload_to_s3, bind, lift, try_except, record_call, print, modify.
  rewrite Hc. cbv beta iota.
  destruct (upload_file b zip_path bucket (object_key zip_path prefix)) as [[]|e];
    [reflexivity|].
  destruct (caught_by _ e); reflexivity.
Qed.

(** The disk is out of reach of [upload_to_s3]. *)
Lemma upload_keeps_disk boto3 zip_path bucket prefix w :
  disk (snd (upload_to_s3 boto3 zip_path bucket prefix w)) = disk w.
Proof.
  destruct boto3 as [b|]; [|reflexivity].
  unfold upload_to_s3, bind, lift, try_except, record_call, print, modify.
  destruct (client_s3 b) as [[]|e0]; [|reflexivity]. cbv beta iota.
  destruct (upload_file b zip_path bucket (object_key zip_path prefix)) as [[]|e];
    [reflexivity|].
  destruct (caught_by _ e); reflexivity.
Qed.

(** [except (BotoCoreError, NoCredentialsError)] catches exactly the
    instances of [BotoCoreError]. *)
Lemma caught_by_BotoCoreError e :
  caught_by [BotoCoreError; NoCredentialsError] e = isinstance e BotoCoreError.
Proof. destruct e as [[] msg]; reflexivity. Qed.

(** The failures [upload_to_s3] handles.  Without the client library
    the function reports that and returns; when the transfer raises a
    [BotoCoreError] ([NoCredentialsError] is one) it reports the
    failure and returns; and whatever happens, returned or raised, the
    local disk is what it was. *)
Lemma handled_failures_reported
    (b : boto3_module) (zip_path bucket prefix : string) (w : world) (e : exc) :
  client_s3 b = Return tt ->
  upload_file b zip_path bucket (object_key zip_path prefix) = Raise e ->
  isinstance e BotoCoreError = true ->
  upload_to_s3 None zip_path bucket prefix w
  = (Return tt,
     World (console w ++ ["boto3 is not installed; cannot upload to S3."])
           (disk w) (calls w))
  /\ upload_to_s3 (Some b) zip_path bucket prefix w
     = (Return tt,
        World (console w ++ ["Failed to upload to S3: " +:+ exc_str e])
              (disk w)
              (calls w ++ [(zip_path, bucket, object_key zip_path prefix)]))
  /\ (forall boto3,
        disk (snd (upload_to_s3 boto3 zip_path bucket prefix w)) = disk w).
Proof.
  intros Hc Hup He. split; [reflexivity|]. split.
  - unfold upload_to_s3, bind, lift, try_except, record_call, print, modify.
    rewrite Hc. cbv beta iota. rewrite Hup. cbv beta iota.
    rewrite caught_by_BotoCoreError, He. reflexivity.
  - intros boto3. apply upload_keeps_disk.
Qed.

(** C8. The key handed to [upload_file] is the prefix without its
    trailing separators, a separator, and the base name of the archive
    path; and when no prefix (or an empty one) was given, [main] passes
    the session timestamp as the prefix. *)
Theorem C8_object_key
    (b : boto3_module) (zip_path bucket prefix : string) (w : world)
    (a : args) (timestamp bk : string) :
  client_s3 b = Return tt ->
  bucket_given a = Some bk ->
  s3_prefix a = "" ->
  calls (snd (upload_to_s3 (Some b) zip_path bucket prefix w))
  = calls w
    ++ [(zip_path, bucket,
         PosixPath.rstrip_sep prefix +:+ "/" +:+ PosixPath.basename zip_path)]
  /\ (exists k, prefix = PosixPath.rstrip_sep prefix +:+ seps k)
  /\ PosixPath.endswith_sep (PosixPath.rstrip_sep prefix) = false
  /\ (exists dir,
         zip_path = dir +:+ PosixPath.basename zip_path
         /\ (dir = "" \/ PosixPath.endswith_sep dir = true)
         /\ has_sep (PosixPath.basename zip_path) = false)
  /\ parse_s3_prefix None = ""
  /\ main_upload_args a timestamp
     = Some (PosixPath.join "output" (timestamp +:+ ".zip"), bk, timestamp).
Proof.
  intros Hc Hb Hp. split; [apply upload_called, Hc|].
  split; [apply rstrip_sep_decompose|].
  split; [apply rstrip_sep_no_trailing|].
  split; [apply basename_decompose|].
  split; [reflexivity|].
  unfold main_upload_args, str_or. rewrite Hb, Hp. simpl.
  rewrite orb_true_r. reflexivity.
Qed.


(** C7. The code does not do what the claim says for every failed
    transmission.  Without the client library it reports and returns,
    and with no credentials (an auth failure that [botocore] raises as
    [NoCredentialsError]) it reports and returns; but when the service
    refuses the request (an auth failure that [upload_file] raises as
    [S3UploadFailedError], which is no [BotoCoreError]) the exception
    leaves [upload_to_s3]: nothing is reported and the call never
    returns.  The local disk is untouched in all three runs. *)
Theorem C7_refused_upload_escapes :
  let zip_path := "output/20240101T000000Z.zip"%string in
  let refused :=
    Exc S3UploadFailedError
      ("Failed to upload output/20240101T000000Z.zip to "
       +:+ "evidence/incidents/host/20240101T000000Z.zip: "
       +:+ "An error occurred (AccessDenied) when calling the "
       +:+ "PutObject operation: Access Denied") in
  upload_to_s3 None zip_path "evidence" "incidents/host" Demo.world0
  = (Return tt,
     World ["boto3 is not installed; cannot upload to S3."%string] ∅ [])
  /\ upload_to_s3 (Some Demo.no_credentials) zip_path "evidence" "incidents/host"
       Demo.world0
     = (Return tt,
        World ["Failed to upload to S3: Unable to locate credentials"%string] ∅
              [(zip_path, "evidence"%string,
                "incidents/host/20240101T000000Z.zip"%string)])
  /\ isinstance refused BotoCoreError = false
  /\ upload_to_s3 (Some Demo.access_denied) zip_path "evidence" "incidents/host"
       Demo.world0
     = (Raise refused,
        World [] ∅
              [(zip_path, "evidence"%string,
                "incidents/host/20240101T000000Z.zip"%string)])
  /\ ~ (exists w',
          upload_to_s3 (Some Demo.access_denied) zip_path "evidence"
            "incidents/host" Demo.world0
          = (Return tt, w')).
Proof.
  cbv zeta. split; [reflexivity|]. split; [vm_compute; reflexivity|].
  split; [reflexivity|]. split; [vm_compute; reflexivity|].
  intros [w' H]. apply (f_equal fst) in H. vm_compute in H. discriminate H.
Qed.


Example key_example :
  object_key "output/20240101T000000Z.zip" "incidents/host//"
  = "incidents/host/20240101T000000Z.zip"%string.
Proof. reflexivity. Qed.

Lemma C8_witness :
  let zip_path := "output/20240101T000000Z.zip"%string in
  let prefix := "incidents/host//"%string in
  let timestamp := "20240101T000000Z"%string in
  calls (snd (upload_to_s3 (Some Demo.no_credentials) zip_path "evidence" prefix
                Demo.world0))
  = calls Demo.world0
    ++ [(zip_path, "evidence"%string,
         PosixPath.rstrip_sep prefix +:+ "/" +:+ PosixPath.basename zip_path)]
  /\ (exists k, prefix = PosixPath.rstrip_sep prefix +:+ seps k)
  /\ PosixPath.endswith_sep (PosixPath.rstrip_sep prefix) = false
  /\ (exists dir,
         zip_path = dir +:+ PosixPath.basename zip_path
         /\ (dir = ""%string \/ PosixPath.endswith_sep dir = true)
         /\ has_sep (PosixPath.basename zip_path) = false)
  /\ parse_s3_prefix None = ""%string
  /\ main_upload_args Demo.bucket_only timestamp
     = Some (PosixPath.join "output" (timestamp +:+ ".zip"), "evidence"%string,
             timestamp).
Proof.
  apply (C8_object_key Demo.no_credentials "output/20240101T000000Z.zip"%string
           "evidence"%string "incidents/host//"%string Demo.world0
           Demo.bucket_only "20240101T000000Z"%string "evidence"%string).
  - reflexivity.
  - reflexivity.
  - reflexivity.
Defined.

End UploadClaims.

(* ===================================================================== *)
(** * hash_files: further properties                                  *)
(* ===================================================================== *)

Module HashFilesExtras.
Import Fs HashFiles PyFacts FsFacts Sha256Facts HashFilesFacts TreeFacts.

Lemma step_appends_log ev st :
  exists added, log_entries (snd (step ev st)) = log_entries st ++ added.
Proof.
  destruct ev as [target | path f]; simpl.
  - eexists. reflexivity.
  - rewrite hash_one_eq. destruct (hash_stream chunk_size f) as [d|e].
    + exists []. simpl. symmetry. apply app_nil_r.
    + destruct (caught_by _ e); simpl.
      * eexists. reflexivity.
      * exists []. symmetry. apply app_nil_r.
Qed.

(** X1. Whatever happens, returned or raised, [hash_files] only appends
    to the caller's log: the entries that were there stay, first and in
    order. *)
Theorem X1_log_is_append_only
    (fs : filesystem) (targets : list string) (log : list string) :
  exists added, snd (hash_files fs targets log) = log ++ added.
Proof.
  pose proof (for_each_invariant
                (fun st => exists added, log_entries st = log ++ added)
                (events fs targets) step) as Hinv.
  assert (Hloop : exists added,
             log_entries (snd (hash_files_loop fs targets (State [] log)))
             = log ++ added).
  { rewrite hash_files_loop_events. apply Hinv.
    - intros ev st _ [added Hst].
      destruct (step_appends_log ev st) as [more Hmore].
      exists (added ++ more). rewrite Hmore, Hst, app_assoc. reflexivity.
    - exists []. simpl. symmetry. apply app_nil_r. }
  unfold hash_files.
  destruct (hash_files_loop fs targets (State [] log)) as [[[]|e] st]; exact Hloop.
Qed.

(** Records already in [hashes] ride along: a run from any state is the
    run from the empty list with those records in front. *)
Lemma loop_from_state evs :
  forall h l,
    for_each evs step (State h l)
    = (fst (for_each evs step (State [] l)),
       State (h ++ hashes (snd (for_each evs step (State [] l))))
             (log_entries (snd (for_each evs step (State [] l))))).
Proof.
  induction evs as [|ev evs IH]; intros h l.
  - simpl. rewrite app_nil_r. reflexivity.
  - assert (Hstep : exists o h1 l1,
               (forall h0, step ev (State h0 l) = (o, State (h0 ++ h1) l1))).
    { destruct ev as [target | path f]; simpl.
      - exists (Return tt), [], (l ++ [missing_line target]).
        intros h0. unfold append_log, modify. simpl. rewrite app_nil_r. reflexivity.
      - destruct (hash_stream chunk_size f) as [d|e] eqn:Hd.
        + exists (Return tt), [hash_record path d], l.
          intros h0. rewrite hash_one_eq, Hd. reflexivity.
        + destruct (caught_by [PermissionError; OSError] e) eqn:Hc.
          * exists (Return tt), [], (l ++ [failed_line path e]).
            intros h0. rewrite hash_one_eq, Hd, Hc. simpl. rewrite app_nil_r. reflexivity.
          * exists (Raise e), [], l.
            intros h0. rewrite hash_one_eq, Hd, Hc. rewrite app_nil_r. reflexivity. }
    destruct Hstep as (o & h1 & l1 & Hstep).
    simpl. unfold bind. rewrite (Hstep h), (Hstep []). simpl app.
    destruct o as [[]|e].
    + rewrite (IH (h ++ h1) l1), (IH h1 l1). simpl. rewrite app_assoc. reflexivity.
    + simpl. reflexivity.
Qed.

(** X2. Hashing [ts1 ++ ts2] is hashing [ts1] and then [ts2] with the
    log the first run left: the records are concatenated; an exception
    of either run is the exception of the whole.  So a target listed
    twice gives its records twice. *)
Theorem X2_targets_compose
    (fs : filesystem) (ts1 ts2 : list string) (log : list string) :
  hash_files fs (ts1 ++ ts2) log
  = match hash_files fs ts1 log with
    | (Return h1, log1) =>
        match hash_files fs ts2 log1 with
        | (Return h2, log2) => (Return (h1 ++ h2), log2)
        | (Raise e, log2) => (Raise e, log2)
        end
    | (Raise e, log1) => (Raise e, log1)
    end.
Proof.
  unfold hash_files, hash_files_loop. rewrite for_each_app. unfold bind.
  destruct (for_each ts1 (hash_target fs) (State [] log)) as [[[]|e] [h1 l1]];
    [|reflexivity].
  fold (hash_files_loop fs ts2). rewrite !hash_files_loop_events.
  rewrite (loop_from_state (events fs ts2) h1 l1). simpl.
  destruct (for_each (events fs ts2) step (State [] l1)) as [[[]|e] [h2 l2]];
    reflexivity.
Qed.

Lemma omap_visit_records target (l : list (list string * file)) :
  (forall cs f, In (cs, f) l -> fault f = NoFault) ->
  omap record_of
    (map (fun pf => Visit (fst pf) (snd pf))
         (map (fun cf => (PosixPath.join_all target (fst cf), snd cf)) l))
  = map (fun cf => hash_record (PosixPath.join_all target (fst cf))
                               (Sha256.sha256_hex (content (snd cf)))) l
  /\ omap line_of
       (map (fun pf => Visit (fst pf) (snd pf))
            (map (fun cf => (PosixPath.join_all target (fst cf), snd cf)) l))
     = [].
Proof.
  induction l as [|[cs f] l IH]; intros Hok; [split; reflexivity|].
  destruct IH as [IH1 IH2]; [intros cs' f' H; apply (Hok cs' f'); right; exact H|].
  pose proof (hash_stream_nofault chunk_size f chunk_size_pos
                (Hok cs f (or_introl eq_refl))) as Hd.
  split; simpl; rewrite Hd; simpl.
  - f_equal. exact IH1.
  - exact IH2.
Qed.

(** X3. For a target that is a directory whose files all read without
    fault, [hash_files] returns exactly one record per regular file
    below it, at any depth, in the order of the walk; the [file] field
    is the target joined with the names that lead to the file, the
    digest is that of the file's bytes, and the log is left as it
    was. *)
Theorem X3_one_record_per_file
    (fs : filesystem) (target : string) (n : node) (log : list string) :
  fs target = Some n ->
  (forall cs f, In (cs, f) (tree_files n) -> fault f = NoFault) ->
  hash_files fs [target] log
  = (Return
       (map (fun cf =>
               [("file", PosixPath.join_all target (fst cf));
                ("sha256", Sha256.sha256_hex (content (snd cf)))]%string)
            (tree_files n)),
     log).
Proof.
  intros Hn Hok. unfold hash_files. rewrite hash_files_loop_events.
  assert (Hev : events fs [target]
                = map (fun pf => Visit (fst pf) (snd pf))
                    (map (fun cf => (PosixPath.join_all target (fst cf), snd cf))
                         (tree_files n))).
  { unfold events, target_events. simpl. rewrite Hn, app_nil_r, walk_files_tree.
    reflexivity. }
  destruct (omap_visit_records target (tree_files n) Hok) as [Hrec Hline].
  assert (Htot : fst (for_each (events fs [target]) step (State [] log)) = Return tt).
  { apply HashFilesClaims.run_events_total. intros p f e Hin Hraise.
    rewrite Hev in Hin. apply in_map_iff in Hin as ([p' f'] & [= <- <-] & Hin).
    apply in_map_iff in Hin as ([cs f0] & [= <- <-] & Hin).
    rewrite (hash_stream_nofault chunk_size f0 chunk_size_pos (Hok cs f0 Hin)) in Hraise.
    discriminate. }
  destruct (for_each (events fs [target]) step (State [] log)) as [o st] eqn:Hrun.
  simpl in Htot. subst o.
  apply HashFilesClaims.run_events_return in Hrun as [-> ->].
  rewrite Hev, Hrec, Hline, app_nil_r. reflexivity.
Qed.

(** X4. An exception that is no [OSError] is not caught: when the files
    before it went through, [hash_files] raises it at the first file
    whose reading raises it.  The records made so far are lost with the
    return value; the lines logged so far stay in the caller's list. *)
Theorem X4_other_exception_propagates
    (fs : filesystem) (targets : list string) (log : list string)
    (pre post : list event) (path : string) (f : file) (e : exc) :
  events fs targets = pre ++ Visit path f :: post ->
  (forall p f' e',
      In (Visit p f') pre ->
      hash_stream chunk_size f' = Raise e' -> isinstance e' OSError = true) ->
  hash_stream chunk_size f = Raise e ->
  isinstance e OSError = false ->
  hash_files fs targets log = (Raise e, log ++ omap line_of pre).
Proof.
  intros Hev Hpre Hraise Hnot. unfold hash_files.
  rewrite hash_files_loop_events, Hev, for_each_app. unfold bind.
  pose proof (HashFilesClaims.run_events_total pre Hpre (State [] log)) as Htot.
  destruct (for_each pre step (State [] log)) as [o st] eqn:Hrun.
  simpl in Htot. subst o.
  apply HashFilesClaims.run_events_return in Hrun as [_ Hlog].
  simpl. unfold bind.
  rewrite hash_one_eq, Hraise, HashFilesClaims.caught_by_OSError, Hnot.
  rewrite Hlog. reflexivity.
Qed.

Lemma omap_lengths evs :
  length (omap record_of evs) + length (omap line_of evs) = length evs.
Proof.
  induction evs as [|[target | path f] evs IH]; simpl.
  - reflexivity.
  - rewrite Nat.add_succ_r. f_equal. exact IH.
  - destruct (hash_stream chunk_size f); simpl.
    + f_equal. exact IH.
    + rewrite Nat.add_succ_r. f_equal. exact IH.
Qed.

(** X5. When [hash_files] returns, every missing target and every file
    the walk reached is accounted for exactly once: by a record or by a
    new log line, never by both and never by neither. *)
Theorem X5_every_event_accounted_for
    (fs : filesystem) (targets : list string) (log : list string)
    (hs : list (list (string * string))) (log' : list string) :
  hash_files fs targets log = (Return hs, log') ->
  exists added,
    log' = log ++ added
    /\ length hs + length added = length (events fs targets)
    /\ hs = omap record_of (events fs targets)
    /\ added = omap line_of (events fs targets).
Proof.
  unfold hash_files. rewrite hash_files_loop_events.
  destruct (for_each (events fs targets) step (State [] log)) as [[[]|e] st] eqn:Hrun;
    [|discriminate].
  intros [= <- <-]. apply HashFilesClaims.run_events_return in Hrun as [-> ->].
  exists (omap line_of (events fs targets)). simpl.
  split; [reflexivity|]. split; [apply omap_lengths|]. split; reflexivity.
Qed.


Lemma X3_witness :
  hash_files Cases.readable_fs ["/r"%string] ["kept"%string]
  = (Return
       (map (fun cf =>
               [("file", PosixPath.join_all "/r" (fst cf));
                ("sha256", Sha256.sha256_hex (content (snd cf)))]%string)
            (tree_files Cases.readable_dir)),
     ["kept"%string]).
Proof.
  apply (X3_one_record_per_file Cases.readable_fs "/r"%string Cases.readable_dir).
  - reflexivity.
  - intros cs f Hin. simpl in Hin.
    repeat (destruct Hin as [[= <- <-] | Hin]; [reflexivity|]).
    destruct Hin.
Defined.

Example readable_tree_paths :
  map (fun cf => PosixPath.join_all "/r" (fst cf)) (tree_files Cases.readable_dir)
  = ["/r/a.txt"; "/r/deep/er/b.txt"]%string.
Proof. reflexivity. Qed.

Lemma X4_witness :
  hash_files Cases.mixed_fs ["/mixed"%string] []
  = (Raise (Exc MemoryError ""),
     [] ++ omap line_of [Visit "/mixed/a.txt" Demo.a_txt]).
Proof.
  apply (X4_other_exception_propagates Cases.mixed_fs ["/mixed"%string] []
           [Visit "/mixed/a.txt" Demo.a_txt] [Visit "/mixed/b.txt" Demo.b_txt]
           "/mixed/huge.bin"%string Cases.huge (Exc MemoryError "")).
  - reflexivity.
  - intros p f' e' [[= <- <-] | []] Hr. vm_compute in Hr. discriminate Hr.
  - vm_compute. reflexivity.
  - reflexivity.
Defined.

Lemma X5_witness :
  exists added,
    [Demo.locked_line; "Target path not found: /no/such/dir"%string] = [] ++ added
    /\ length [Demo.hello_record; Demo.world_record] + length added
       = length (events Demo.demo_fs ["/data"; "/no/such/dir"]%string)
    /\ [Demo.hello_record; Demo.world_record]
       = omap record_of (events Demo.demo_fs ["/data"; "/no/such/dir"]%string)
    /\ added = omap line_of (events Demo.demo_fs ["/data"; "/no/such/dir"]%string).
Proof.
  apply (X5_every_event_accounted_for Demo.demo_fs ["/data"; "/no/such/dir"]%string []).
  vm_compute. reflexivity.
Defined.

End HashFilesExtras.

(* ===================================================================== *)
(** * write_csv: further properties                                   *)
(* ===================================================================== *)

Module WriteCsvExtras.
Import WriteCsv PyFacts WriteCsvClaims.

Lemma wrong_fields_nil fieldnames rowdict :
  (forall k, In k (map fst rowdict) -> In k fieldnames) ->
  wrong_fields fieldnames rowdict = [].
Proof.
  unfold wrong_fields. generalize (map fst rowdict). intros keys.
  induction keys as [|k keys IH]; intros Hsub; [reflexivity|].
  rewrite filter_cons. destruct (decide _) as [Hk|_].
  - rewrite mem_in in Hk by (apply Hsub; left; reflexivity). discriminate.
  - apply IH. intros k' Hk'. apply Hsub. right. exact Hk'.
Qed.

Lemma dict_get_missing (d : list (string * string)) k :
  ~ In k (map fst d) -> dict_get d k = ""%string.
Proof.
  induction d as [|[k0 v0] d IH]; intros Hk; [reflexivity|].
  simpl. destruct (String.eqb_spec k0 k) as [->|_].
  - exfalso. apply Hk. left. reflexivity.
  - apply IH. intros H. apply Hk. right. exact H.
Qed.

Lemma dict_get_row (d : list (string * string)) :
  List.NoDup (map fst d) -> map (dict_get d) (map fst d) = map snd d.
Proof.
  induction d as [|[k v] d IH]; intros Hnd; [reflexivity|].
  simpl in Hnd. inversion Hnd as [|? ? Hk Hnd']; subst.
  simpl. rewrite String.eqb_refl. f_equal.
  rewrite <- (IH Hnd'). apply map_ext_in. intros k' Hk'.
  destruct (String.eqb_spec k k') as [->|_]; [contradiction | reflexivity].
Qed.

Lemma dict_get_valid (d : list (string * string)) k :
  forallb Text.utf8_valid (map snd d) = true ->
  Text.utf8_valid (dict_get d k) = true.
Proof.
  induction d as [|[k0 v0] d IH]; [reflexivity|].
  simpl. intros H. apply andb_true_iff in H as [Hv Hd].
  destruct (String.eqb k0 k); [exact Hv | exact (IH Hd)].
Qed.

Lemma row_of_valid fieldnames (d : list (string * string)) :
  forallb Text.utf8_valid (map snd d) = true ->
  forallb Text.utf8_valid (row_of fieldnames d) = true.
Proof.
  intros Hd. unfold row_of. apply forallb_forall. intros x Hx.
  apply in_map_iff in Hx as (k & <- & _). apply dict_get_valid, Hd.
Qed.

(** X6. Records of text that UTF-8 can encode, whose keys all occur
    among the first record's keys, are written without error: the file
    at [path] holds the first record's keys as header and then one row
    per record, in order, each with its values under the header's keys.
    The first record's row is its own values; a record that lacks a key
    of the header gets the empty string in that column. *)
Theorem X6_rows_under_first_header
    (open_fault : string -> option exc)
    (first : list (string * string))
    (rest : list (list (string * string)))
    (path : string) (disk : gmap string csv_file) :
  open_fault path = None ->
  List.NoDup (map fst first) ->
  Forall (fun r => forall k, In k (map fst r) -> In k (map fst first)) rest ->
  forallb Text.utf8_valid (map fst first) = true ->
  Forall (fun r => forallb Text.utf8_valid (map snd r) = true) (first :: rest) ->
  write_csv open_fault (first :: rest) path disk
  = (Return tt,
     <[path := map fst first
               :: map snd first
               :: map (fun r => map (dict_get r) (map fst first)) rest]> disk)
  /\ (forall r k, In r rest -> ~ In k (map fst r) -> dict_get r k = ""%string).
Proof.
  intros Hopen Hnd Hrest Hhead Henc. split.
  - inversion Henc as [|? ? Hfirst Hrenc]; subst.
    rewrite write_csv_uniform;
      [|exact Hopen | exact Hhead | apply row_of_valid, Hfirst|].
    + simpl map. unfold row_of at 1. rewrite dict_get_row by exact Hnd. reflexivity.
    + clear -Hrest Hrenc. induction Hrest as [|r rest Hr _ IH];
        [apply Stdlib.Lists.List.Forall_nil|].
      inversion Hrenc; subst.
      apply Stdlib.Lists.List.Forall_cons; [|apply IH; assumption].
      split; [apply wrong_fields_nil, Hr | apply row_of_valid; assumption].
  - intros r k _ Hk. apply dict_get_missing, Hk.
Qed.




Lemma X6_witness :
  write_csv Demo.always_opens
    (Demo.row_a :: [[("sha256", "486e")]; Demo.row_b])%string "hashes.csv" ∅
  = (Return tt,
     <["hashes.csv"%string :=
         map fst Demo.row_a
         :: map snd Demo.row_a
         :: map (fun r => map (dict_get r) (map fst Demo.row_a))
                [[("sha256", "486e")]; Demo.row_b]%string]> ∅)
  /\ (forall r k, In r [[("sha256", "486e")]; Demo.row_b]%string ->
                  ~ In k (map fst r) -> dict_get r k = ""%string).
Proof.
  apply (X6_rows_under_first_header Demo.always_opens Demo.row_a
           [[("sha256", "486e")]; Demo.row_b]%string "hashes.csv"%string ∅).
  - reflexivity.
  - constructor; [simpl; intros [H | []]; discriminate H|].
    constructor; [intros [] | constructor].
  - constructor; [|constructor; [|constructor]].
    + intros k [<- | []]. simpl. auto.
    + intros k [<- | [<- | []]]; simpl; auto.
  - reflexivity.
  - repeat constructor.
Defined.

Example missing_key_row :
  snd (write_csv Demo.always_opens
         (Demo.row_a :: [[("sha256", "486e")]])%string "hashes.csv" ∅)
  !! "hashes.csv"%string
  = Some [["file"; "sha256"]; ["/data/a.txt"; "2cf2"]; [""; "486e"]]%string.
Proof. vm_compute. reflexivity. Qed.


End WriteCsvExtras.

(* ===================================================================== *)
(** * compress_directory: further properties                          *)
(* ===================================================================== *)

Module CompressExtras.
Import Fs PosixPath Compress PyFacts FsFacts StringFacts PathFacts TreeFacts.
Import CompressClaims.

(** What a file of a well-formed tree does to the archive. *)
Lemma zip_step cwd src_dir cs f (arch : archive) :
  startswith_sep cwd = true ->
  cs <> [] ->
  Forall (fun c => valid_name c = true) cs ->
  (rel_path <~ lift (relpath cwd (join_all src_dir cs) src_dir);
   zip_write f rel_path)%py arch
  = zip_write f (sep_join cs) arch.
Proof.
  intros Hcwd Hne Hcs. unfold bind at 1. unfold lift at 1.
  rewrite relpath_below by assumption. reflexivity.
Qed.

(** A loop whose steps return, up to a step that raises. *)
Lemma for_each_raises {S A} (body : A -> M S unit) pre x post e :
  (forall y s, In y pre -> fst (body y s) = Return tt) ->
  (forall s, fst (body x s) = Raise e) ->
  forall s, fst (for_each (pre ++ x :: post) body s) = Raise e.
Proof.
  intros Hpre Hx s. rewrite for_each_app. unfold bind.
  pose proof (for_each_returns pre body Hpre s) as Hret.
  destruct (for_each pre body s) as [[[]|e'] s1]; [|discriminate].
  simpl. unfold bind. specialize (Hx s1).
  destruct (body x s1) as [[[]|e'] s2]; [discriminate|]. exact Hx.
Qed.

(** On a well-formed tree the call is a loop over the files of the
    tree, each written under its relative path. *)
Lemma compress_loop cwd fs src_dir n (a0 : archive) :
  startswith_sep cwd = true ->
  fs src_dir = Some n ->
  wf_node n = true ->
  compress_directory cwd fs src_dir a0
  = for_each (tree_files n)
      (fun cf => zip_write (snd cf) (sep_join (fst cf))) a0.
Proof.
  intros Hcwd Hn Hwf.
  rewrite (compress_directory_tree cwd fs src_dir n a0 Hn).
  apply for_each_ext. intros [cs f] arch Hin.
  destruct (tree_files_valid n Hwf cs f Hin) as [Hne Hcs].
  cbn [fst snd]. apply zip_step; assumption.
Qed.


(** X9. [compress_directory] has no [try]: after files that could be
    stored and read, the first file that cannot makes the call raise
    that file's error, however many files come after it.  A file that
    cannot be read gives the error of [open] or [read]; a file dated
    before 1980 gives [ValueError]; a file that can be opened, under a
    relative path that UTF-8 cannot encode, gives
    [UnicodeEncodeError]. *)
Theorem X9_first_bad_file_aborts
    (cwd : string) (fs : filesystem) (src_dir : string) (n : node)
    (pre post : list (list string * file)) (cs : list string) (f : file) :
  startswith_sep cwd = true ->
  fs src_dir = Some n ->
  wf_node n = true ->
  tree_files n = pre ++ (cs, f) :: post ->
  (forall cs' f', In (cs', f') pre ->
     storable (sep_join cs') f' = true
     /\ exists data, read_whole f' = Return data) ->
  (forall e, storable (sep_join cs) f = true -> read_whole f = Raise e ->
     fst (compress_directory cwd fs src_dir []) = Raise e)
  /\ ((mtime_year f < 1980)%Z ->
      fst (compress_directory cwd fs src_dir [])
      = Raise (Exc ValueError "ZIP does not support timestamps before 1980"))
  /\ ((1980 <= mtime_year f)%Z ->
      (forall e, fault f <> OpenRaises e) ->
      Text.utf8_valid (sep_join cs) = false ->
      exists msg,
        fst (compress_directory cwd fs src_dir [])
        = Raise (Exc UnicodeEncodeError msg)).
Proof.
  intros Hcwd Hn Hwf Hsplit Hpre.
  rewrite (compress_loop cwd fs src_dir n [] Hcwd Hn Hwf).
  pose proof (tree_files_valid n Hwf) as Hvalid. rewrite Hsplit in Hvalid |- *.
  assert (Hgo : forall e,
            (forall a : archive, fst (zip_write f (sep_join cs) a) = Raise e) ->
            fst (for_each (pre ++ (cs, f) :: post)
                   (fun cf => zip_write (snd cf) (sep_join (fst cf)))
                   ([] : archive)) = Raise e).
  { intros e He. apply for_each_raises; [|exact He].
    intros [cs' f'] arch Hin.
    destruct (Hvalid cs' f') as [Hne Hcs]; [apply in_or_app; left; exact Hin|].
    destruct (Hpre cs' f' Hin) as [Hst [data Hdata]]. cbn [fst snd].
    rewrite (zip_write_ok f' (sep_join cs') (sep_join cs') data);
      [reflexivity | apply zip_arcname_clean; assumption | exact Hst | exact Hdata]. }
  destruct (Hvalid cs f) as [Hne Hcs]; [apply in_elt|].
  pose proof (zip_arcname_clean cs Hne Hcs) as Harc.
  split; [|split].
  - intros e Hst Hraise. apply Hgo. intros a.
    exact (zip_write_unreadable f _ _ e a Harc Hst Hraise).
  - intros Hold. apply Hgo. intros a.
    unfold zip_write, bind, lift, zip_open, zip_info. rewrite Harc.
    destruct (Z.ltb_spec (mtime_year f) 1980); [reflexivity | lia].
  - intros Hyear Hopen Hname. eexists. apply Hgo. intros a.
    unfold zip_write, bind, lift, zip_open, zip_info, file_header,
      Text.encode_utf8.
    rewrite Harc. destruct (Z.ltb_spec (mtime_year f) 1980); [lia|].
    unfold open_rb. destruct (fault f) as [|e'|k e'] eqn:Hf;
      try (rewrite Hname; reflexivity).
    destruct (Hopen e' eq_refl).
Qed.

(** X10. The archive depends on the tree alone: two calls that reach
    the same tree write the same members, whatever the working
    directory and however the source directory is spelled (relative or
    absolute, with [.], [..] or doubled separators in it). *)
Theorem X10_archive_depends_on_tree_only
    (cwd1 cwd2 : string) (fs1 fs2 : filesystem) (src1 src2 : string)
    (n : node) :
  startswith_sep cwd1 = true ->
  startswith_sep cwd2 = true ->
  fs1 src1 = Some n ->
  fs2 src2 = Some n ->
  wf_node n = true ->
  (forall cs f, In (cs, f) (tree_files n) ->
                exists data, read_whole f = Return data) ->
  compress_directory cwd1 fs1 src1 [] = compress_directory cwd2 fs2 src2 [].
Proof.
  intros H1 H2 Hn1 Hn2 Hwf Hread.
  rewrite (compress_loop cwd1 fs1 src1 n [] H1 Hn1 Hwf).
  rewrite (compress_loop cwd2 fs2 src2 n [] H2 Hn2 Hwf).
  reflexivity.
Qed.

(** X11. No member name leads out of the place the archive is extracted
    to: split at the separators, every name is a non-empty list of
    valid file names, so no name is empty, is absolute, or has an
    empty, [.] or [..] component. *)
Theorem X11_member_names_stay_inside
    (cwd : string) (fs : filesystem) (src_dir : string) (n : node)
    (a : archive) (name : string) (data : list byte) :
  startswith_sep cwd = true ->
  fs src_dir = Some n ->
  wf_node n = true ->
  compress_directory cwd fs src_dir [] = (Return tt, a) ->
  In (name, data) a ->
  split name <> []
  /\ Forall (fun c => valid_name c = true) (split name)
  /\ extract_name name = name.
Proof.
  intros Hcwd Hn Hwf Hrun Hin.
  pose proof (tree_files_valid n Hwf) as Hvalid.
  assert (Hnames : forall e, In e a ->
             exists cs, fst e = sep_join cs /\ cs <> []
                        /\ Forall (fun c => valid_name c = true) cs).
  { rewrite (compress_directory_tree cwd fs src_dir n [] Hn) in Hrun.
    pose proof (for_each_invariant
                  (fun arch : archive =>
                     forall e, In e arch ->
                       exists cs, fst e = sep_join cs /\ cs <> []
                                  /\ Forall (fun c => valid_name c = true) cs)
                  (tree_files n)
                  (fun cf =>
                     (rel_path <~ lift (relpath cwd (join_all src_dir (fst cf)) src_dir);
                      zip_write (snd cf) rel_path)%py)) as Hinv.
    assert (Hstep : forall (x : list string * file) (arch : archive),
               In x (tree_files n) ->
               (forall e, In e arch ->
                  exists cs, fst e = sep_join cs /\ cs <> []
                             /\ Forall (fun c => valid_name c = true) cs) ->
               forall e,
                 In e (snd ((rel_path <~ lift (relpath cwd (join_all src_dir (fst x)) src_dir);
                             zip_write (snd x) rel_path)%py arch)) ->
                 exists cs, fst e = sep_join cs /\ cs <> []
                            /\ Forall (fun c => valid_name c = true) cs).
    { intros [cs f] arch Hcf Harch e.
      destruct (Hvalid cs f Hcf) as [Hne Hcs].
      cbn [fst snd]. rewrite zip_step by assumption.
      intros He. apply zip_write_names in He as [He | He]; [apply Harch, He|].
      rewrite zip_arcname_clean in He by assumption. injection He as He.
      exists cs. auto. }
    specialize (Hinv Hstep [] (fun e (H : In e []) => match H with end)).
    rewrite Hrun in Hinv. exact Hinv. }
  destruct (Hnames (name, data) Hin) as (cs & Hname & Hne & Hcs).
  simpl in Hname. subst name.
  rewrite split_sep_join by (assumption || apply valid_nosep, Hcs).
  split; [exact Hne|]. split; [exact Hcs|].
  apply extract_name_clean; assumption.
Qed.


Example file_as_source :
  compress_directory "/home/ir" Cases.hollow_fs "/etc/hostname" [] = (Return tt, [])
  /\ compress_directory "/home/ir" Cases.hollow_fs "/nowhere" [] = (Return tt, []).
Proof. split; reflexivity. Qed.

Lemma X9_witness :
  fst (compress_directory "/home/ir" Cases.guarded_fs "out" [])
  = Raise (Exc PermissionError "[Errno 13] Permission denied: '/data/sub/locked'")
  /\ fst (compress_directory "/home/ir" Cases.dated_fs "/var/ir" [])
     = Raise (Exc ValueError "ZIP does not support timestamps before 1980")
  /\ exists msg,
       fst (compress_directory "/home/ir" Cases.latin1_fs "/var/ir" [])
       = Raise (Exc UnicodeEncodeError msg).
Proof.
  split; [|split].
  - destruct (X9_first_bad_file_aborts "/home/ir"%string Cases.guarded_fs
                "out"%string Cases.guarded_dir
                [(["system_info.json"%string],
                  File (list_byte_of_string "{}") NoFault 2024)]
                [(["hashes.csv"%string],
                  File (list_byte_of_string "file,sha256") NoFault 2024)]
                ["log.txt"%string] Demo.locked) as (Hread & _ & _);
      [reflexivity | reflexivity | reflexivity | reflexivity | |].
    + intros cs' f' [[= <- <-] | []]. split; [reflexivity|].
      eexists. vm_compute. reflexivity.
    + apply Hread; reflexivity.
  - destruct (X9_first_bad_file_aborts "/home/ir"%string Cases.dated_fs
                "/var/ir"%string Cases.dated_dir
                [(["a.txt"%string], Demo.a_txt)]
                [(["b.txt"%string], Demo.b_txt)]
                ["old.log"%string] Cases.epoch_file) as (_ & Hold & _);
      [reflexivity | reflexivity | reflexivity | reflexivity | |].
    + intros cs' f' [[= <- <-] | []]. split; [reflexivity|].
      eexists. vm_compute. reflexivity.
    + apply Hold. reflexivity.
  - destruct (X9_first_bad_file_aborts "/home/ir"%string Cases.latin1_fs
                "/var/ir"%string Cases.latin1_dir
                [(["a.txt"%string], Demo.a_txt)] []
                [Cases.latin1_name] Demo.b_txt) as (_ & _ & Hname);
      [reflexivity | reflexivity | reflexivity | reflexivity | |].
    + intros cs' f' [[= <- <-] | []]. split; [reflexivity|].
      eexists. vm_compute. reflexivity.
    + apply Hname; [discriminate | discriminate | reflexivity].
Defined.

Example locked_file_aborts :
  fst (compress_directory "/home/ir" Cases.guarded_fs "out" [])
  = Raise (Exc PermissionError "[Errno 13] Permission denied: '/data/sub/locked'").
Proof. vm_compute. reflexivity. Qed.

Example failed_copy_leaves_a_member :
  zip_write Demo.bad_sector "raw/disk.img" []
  = (Raise (Exc OSError "[Errno 5] Input/output error"),
     [("raw/disk.img"%string, list_byte_of_string "half")]).
Proof. vm_compute. reflexivity. Qed.

Example old_file_aborts :
  compress_directory "/home/ir" Cases.dated_fs "/var/ir" []
  = (Raise (Exc ValueError "ZIP does not support timestamps before 1980"),
     [("a.txt"%string, list_byte_of_string "hello")]).
Proof. vm_compute. reflexivity. Qed.

Example far_file_aborts :
  fst (compress_directory "/home/ir" Cases.far_fs "/var/ir" [])
  = Raise (Exc StructError "ushort format requires 0 <= number <= 65535").
Proof. vm_compute. reflexivity. Qed.

Example latin1_name_aborts :
  Text.utf8_valid Cases.latin1_name = false
  /\ exists msg,
       compress_directory "/home/ir" Cases.latin1_fs "/var/ir" []
       = (Raise (Exc UnicodeEncodeError msg),
          [("a.txt"%string, list_byte_of_string "hello")]).
Proof. split; [|eexists]; vm_compute; reflexivity. Qed.

Lemma X10_witness :
  compress_directory "/home/ir" Demo.session_fs "output/20240101T000000Z" []
  = compress_directory "/" Cases.session_fs'
      "/srv/ir/output/../output/20240101T000000Z/" [].
Proof.
  apply (X10_archive_depends_on_tree_only "/home/ir"%string "/"%string
           Demo.session_fs Cases.session_fs'
           "output/20240101T000000Z"%string
           "/srv/ir/output/../output/20240101T000000Z/"%string Demo.session_dir).
  - reflexivity.
  - reflexivity.
  - reflexivity.
  - reflexivity.
  - reflexivity.
  - intros cs f Hin. simpl in Hin.
    repeat (destruct Hin as [[= <- <-] | Hin];
            [eexists; vm_compute; reflexivity|]).
    destruct Hin.
Defined.

Lemma X11_witness :
  split "raw/log.txt" <> []
  /\ Forall (fun c => valid_name c = true) (split "raw/log.txt")
  /\ extract_name "raw/log.txt" = "raw/log.txt"%string.
Proof.
  apply (X11_member_names_stay_inside "/home/ir"%string Demo.session_fs
           "output/20240101T000000Z"%string Demo.session_dir
           [("system_info.json"%string, list_byte_of_string "{}");
            ("hashes.csv"%string, list_byte_of_string "file,sha256");
            ("raw/log.txt"%string, list_byte_of_string "line")]
           "raw/log.txt"%string (list_byte_of_string "line")).
  - reflexivity.
  - reflexivity.
  - reflexivity.
  - vm_compute. reflexivity.
  - right. right. left. reflexivity.
Defined.

End CompressExtras.

(* ===================================================================== *)
(** * upload_to_s3: further properties                                *)
(* ===================================================================== *)

Module UploadExtras.
Import Upload PosixPath StringFacts KeyFacts UploadClaims.

(** X12. [upload_to_s3] returns exactly in these cases: [boto3] could
    not be imported; or the client was created and the transfer either
    went through or raised a [BotoCoreError].  An exception raised
    while the client is created is outside the [try]: it leaves the
    function, [BotoCoreError] or not, before anything is printed or
    sent. *)
Theorem X12_when_upload_returns
    (boto3 : option boto3_module) (zip_path bucket prefix : string) (w : world) :
  (fst (upload_to_s3 boto3 zip_path bucket prefix w) = Return tt
   <-> boto3 = None
       \/ exists b,
            boto3 = Some b /\ client_s3 b = Return tt
            /\ (upload_file b zip_path bucket (object_key zip_path prefix) = Return tt
                \/ exists e,
                     upload_file b zip_path bucket (object_key zip_path prefix)
                     = Raise e
                     /\ isinstance e BotoCoreError = true))
  /\ (forall b e,
        boto3 = Some b -> client_s3 b = Raise e ->
        upload_to_s3 boto3 zip_path bucket prefix w = (Raise e, w)).
Proof.
  split.
  - destruct boto3 as [b|]; [|split; [auto | reflexivity]].
    unfold upload_to_s3, bind, lift, try_except, record_call, print, modify.
    destruct (client_s3 b) as [[]|e0] eqn:Hc; cbv beta iota.
    + destruct (upload_file b zip_path bucket (object_key zip_path prefix))
        as [[]|e] eqn:Hu; cbv beta iota.
      * split; [intros _|reflexivity]. right. exists b. auto.
      * rewrite caught_by_BotoCoreError.
        destruct (isinstance e BotoCoreError) eqn:He; simpl.
        -- split; [intros _|reflexivity]. right. exists b.
           split; [reflexivity|]. split; [exact Hc|]. right. exists e. auto.
        -- split; [discriminate|].
           intros [[=] | (b' & [= <-] & _ & [Hok | (e' & Hr & He')])].
           ++ rewrite Hu in Hok. discriminate.
           ++ rewrite Hu in Hr. injection Hr as <-. congruence.
    + simpl. split; [discriminate|].
      intros [[=] | (b' & [= <-] & Hc' & _)]. congruence.
  - intros b e -> Hc.
    unfold upload_to_s3, bind, lift. rewrite Hc. reflexivity.
Qed.

Lemma rstrip_sep_app_seps p k : rstrip_sep (p +:+ seps k) = rstrip_sep p.
Proof.
  induction p as [|c p IH].
  - rewrite str_app_nil_l. induction k as [|k IHk]; [reflexivity|].
    simpl. rewrite IHk. reflexivity.
  - rewrite str_app_cons. cbn [rstrip_sep]. rewrite IH. reflexivity.
Qed.

(** X13. Separators at the end of the prefix make no difference: the
    call with [prefix] followed by any number of [/] does what the call
    with [prefix] does, with the same object key. *)
Theorem X13_trailing_separators_ignored
    (boto3 : option boto3_module) (zip_path bucket prefix : string)
    (k : nat) (w : world) :
  object_key zip_path (prefix +:+ seps k) = object_key zip_path prefix
  /\ upload_to_s3 boto3 zip_path bucket (prefix +:+ seps k) w
     = upload_to_s3 boto3 zip_path bucket prefix w.
Proof.
  assert (Hkey : object_key zip_path (prefix +:+ seps k)
                 = object_key zip_path prefix).
  { unfold object_key. rewrite rstrip_sep_app_seps. reflexivity. }
  split; [exact Hkey|].
  unfold upload_to_s3. rewrite Hkey. reflexivity.
Qed.









Example slash_prefix_key :
  main_upload_args Cases.slash_prefix "20240101T000000Z"
  = Some ("output/20240101T000000Z.zip", "evidence", "/")%string
  /\ object_key "output/20240101T000000Z.zip" "/" = "/20240101T000000Z.zip"%string.
Proof. split; reflexivity. Qed.

Example client_failure_escapes :
  upload_to_s3 (Some Cases.no_region) "output/x.zip" "evidence" "p" Demo.world0
  = (Raise (Exc BotoCoreError "You must specify a region."), Demo.world0).
Proof. reflexivity. Qed.

Example upload_goes_through :
  upload_to_s3 (Some Cases.working) "output/x.zip" "evidence" "p//" Demo.world0
  = (Return tt,
     World ["Uploaded output/x.zip to s3://evidence/p/x.zip"%string] ∅
           [("output/x.zip", "evidence", "p/x.zip")%string]).
Proof. reflexivity. Qed.

End UploadExtras.

(* ===================================================================== *)
(** * collect_connections and collect_processes: further properties   *)
(* ===================================================================== *)

Module CollectorsExtras.
Import Connections Processes StringFacts.

(** [str(n)] reads back as [n]. *)
Lemma str_of_int_read n :
  NilZero.int_of_string (str_of_int n) = Some (Z.to_int n).
Proof.
  unfold str_of_int. apply NilZero.isi; destruct n as [|p|p]; simpl;
    try discriminate; intros [= H]; exact (Unsigned.to_uint_nonnil p H).
Qed.

Lemma str_of_int_inj a b : str_of_int a = str_of_int b -> a = b.
Proof.
  intros H. pose proof (str_of_int_read a) as Ha. rewrite H, str_of_int_read in Ha.
  injection Ha as Ha. rewrite <- (DecimalZ.of_to a), <- (DecimalZ.of_to b), Ha.
  reflexivity.
Qed.

Lemma str_of_int_nonempty n : str_of_int n <> ""%string.
Proof.
  intros H. pose proof (str_of_int_read n) as Hr. rewrite H in Hr. discriminate.
Qed.

(** X15. In a connection record the [pid] field is empty exactly when
    the socket has no owning pid or the pid is 0; for any other pid it
    is [str(pid)], and two such fields are equal only for equal
    pids. *)
Theorem X15_connection_pid_field
    (c1 c2 : sconn) (n1 n2 : Z) :
  pid c1 = Some n1 -> n1 <> 0%Z ->
  pid c2 = Some n2 -> n2 <> 0%Z ->
  (forall c, fmt_pid (pid c) = ""%string <-> pid c = None \/ pid c = Some 0%Z)
  /\ conn_record c1
     = [("pid", str_of_int n1); ("local_address", fmt_addr (laddr c1));
        ("remote_address", fmt_addr (raddr c1)); ("status", status c1)]%string
  /\ (conn_record c1 = conn_record c2 -> n1 = n2).
Proof.
  intros H1 Hn1 H2 Hn2.
  assert (Hnz : forall n, n <> 0%Z -> fmt_pid (Some n) = str_of_int n).
  { intros n Hn. unfold fmt_pid. destruct (Z.eqb_spec n 0); [contradiction|reflexivity]. }
  split; [|split].
  - intros c. destruct (pid c) as [n|]; simpl; [|split; auto].
    destruct (Z.eqb_spec n 0) as [->|Hn].
    + split; auto.
    + split.
      * intros H. exfalso. exact (str_of_int_nonempty n H).
      * intros [[=] | [= ->]]. contradiction.
  - unfold conn_record. rewrite H1, (Hnz n1 Hn1). reflexivity.
  - unfold conn_record. rewrite H1, H2, (Hnz n1 Hn1), (Hnz n2 Hn2).
    intros [= H _ _ _]. apply str_of_int_inj, H.
Qed.

Lemma digits_no_colon d c :
  In c (list_ascii_of_string (NilEmpty.string_of_uint d)) -> c <> ":"%char.
Proof.
  induction d; simpl; try (intros [<- | H]; [discriminate | exact (IHd H)]).
  intros [].
Qed.

Lemma str_of_int_no_colon n c :
  In c (list_ascii_of_string (str_of_int n)) -> c <> ":"%char.
Proof.
  unfold str_of_int, NilZero.string_of_int, NilZero.string_of_uint.
  destruct (Z.to_int n) as [d | d]; [|simpl; intros [<- | H]; [discriminate|revert H]];
    (destruct d; [simpl; intros [<- | []]; discriminate | apply digits_no_colon ..]).
Qed.

(** The text after the last colon is fixed by the whole. *)
Lemma colon_split a1 a2 s1 s2 :
  (forall c, In c (list_ascii_of_string s1) -> c <> ":"%char) ->
  (forall c, In c (list_ascii_of_string s2) -> c <> ":"%char) ->
  (a1 +:+ ":" +:+ s1 = a2 +:+ ":" +:+ s2)%string -> a1 = a2 /\ s1 = s2.
Proof.
  intros H1 H2. revert a2.
  assert (Hin : forall a s, In ":"%char (list_ascii_of_string (a +:+ ":" +:+ s))).
  { intros a s. induction a as [|c a IH]; [left; reflexivity|].
    rewrite str_app_cons. right. exact IH. }
  induction a1 as [|c1 a1 IH]; intros [|c2 a2]; rewrite ?str_app_cons, ?str_app_nil_l.
  - intros [= ->]. auto.
  - intros [= <- ->]. exfalso. exact (H1 _ (Hin a2 s2) eq_refl).
  - intros [= -> <-]. exfalso. exact (H2 _ (Hin a1 s1) eq_refl).
  - intros [= <- H]. destruct (IH _ H) as [-> ->]. auto.
Qed.

(** X16. An address field of a connection record is empty exactly when
    the socket has no such address, and otherwise fixes both the
    address and the port, colons in the address (IPv6) notwithstanding:
    equal fields come from equal addresses. *)
Theorem X16_address_field_reads_back
    (a b : option (string * Z)) :
  (fmt_addr a = ""%string <-> a = None)
  /\ (fmt_addr a = fmt_addr b -> a = b).
Proof.
  assert (Hne : forall ip port, fmt_addr (Some (ip, port)) <> ""%string).
  { intros ip port. unfold fmt_addr. destruct ip; [|discriminate].
    rewrite str_app_nil_l. discriminate. }
  split.
  - destruct a as [[ip port]|]; [|split; reflexivity].
    split; [intros H; destruct (Hne _ _ H) | discriminate].
  - destruct a as [[ip1 p1]|], b as [[ip2 p2]|]; intros H.
    + unfold fmt_addr in H.
      apply colon_split in H as [-> H]; try apply str_of_int_no_colon.
      apply str_of_int_inj in H as ->. reflexivity.
    + destruct (Hne _ _ H).
    + symmetry in H. destruct (Hne _ _ H).
    + reflexivity.
Qed.

Example ipv6_field :
  fmt_addr (Some ("fe80::1"%string, 443%Z)) = "fe80::1:443"%string.
Proof. reflexivity. Qed.

Lemma collect_processes_from procs :
  forall acc, fold_left process_step procs acc
              = acc ++ map proc_record (readable procs).
Proof.
  induction procs as [|[info | err] procs IH]; intros acc; simpl.
  - symmetry. apply app_nil_r.
  - rewrite IH, <- app_assoc. reflexivity.
  - apply IH.
Qed.

Lemma readable_app l1 l2 : readable (l1 ++ l2) = readable l1 ++ readable l2.
Proof.
  induction l1 as [|[info | err] l1 IH]; simpl; [reflexivity | f_equal; exact IH | exact IH].
Qed.

(** X17. [collect_processes] returns one record per process whose
    attributes could be read, in the order of the iteration; a process
    that raised [NoSuchProcess] or [AccessDenied] leaves no trace: the
    result is the one of the iteration without it, and never longer
    than the iteration. *)
Theorem X17_vanished_processes_leave_no_trace
    (before after : list proc) (err : psutil_error) :
  collect_processes (before ++ Gone err :: after)
  = collect_processes (before ++ after)
  /\ collect_processes (before ++ after)
     = collect_processes before ++ collect_processes after
  /\ collect_processes before = map proc_record (readable before)
  /\ length (collect_processes before) <= length before.
Proof.
  unfold collect_processes. rewrite !collect_processes_from. simpl.
  rewrite !readable_app. simpl. split; [reflexivity|].
  split; [apply map_app|]. split; [reflexivity|].
  rewrite length_map. induction before as [|[info | e] l IH]; simpl; lia.
Qed.

Lemma space_join_merge a b l :
  space_join (a :: b :: l) = space_join ((a +:+ " " +:+ b) :: l).
Proof.
  destruct l as [|c l]; [reflexivity|].
  change (space_join (a :: b :: c :: l))
    with (a +:+ " " +:+ b +:+ " " +:+ space_join (c :: l)).
  change (space_join ((a +:+ " " +:+ b) :: c :: l))
    with ((a +:+ " " +:+ b) +:+ " " +:+ space_join (c :: l)).
  rewrite !str_app_assoc. reflexivity.
Qed.

(** X18. The [cmdline] field does not tell the arguments apart: two
    processes whose argument lists differ only in that two neighbouring
    arguments of the one are a single argument with a space in the
    other get the same record; and a missing command line, an empty one
    and one made of a single empty argument all give the empty
    field. *)
Theorem X18_cmdline_field_is_lossy
    (pid : Z) (name : option string) (a b : string) (l : list string) :
  proc_record (PInfo pid name (Some (a :: b :: l)))
  = proc_record (PInfo pid name (Some ((a +:+ " " +:+ b) :: l)))
  /\ proc_record (PInfo pid name None) = proc_record (PInfo pid name (Some []))
  /\ proc_record (PInfo pid name (Some [])) = proc_record (PInfo pid name (Some [""%string])).
Proof.
  split; [|split; reflexivity].
  assert (H : fmt_cmdline (Some (a :: b :: l))
              = fmt_cmdline (Some ((a +:+ " " +:+ b) :: l)))
    by exact (space_join_merge a b l).
  unfold proc_record. cbn [p_cmdline p_pid p_name]. rewrite H. reflexivity.
Qed.

(** X19. In a process record the [pid] field is never empty, pid 0
    included (it gives ["0"], where a connection record has the empty
    string), and records of processes with different pids differ. *)
Theorem X19_process_pid_field
    (i1 i2 : pinfo) :
  (exists v, proc_record i1 = ("pid"%string, v) :: tl (proc_record i1)
             /\ v = str_of_int (p_pid i1) /\ v <> ""%string)
  /\ proc_record (PInfo 0 (p_name i1) (p_cmdline i1))
     = ("pid", "0")%string :: tl (proc_record i1)
  /\ (proc_record i1 = proc_record i2 -> p_pid i1 = p_pid i2).
Proof.
  split; [|split].
  - exists (str_of_int (p_pid i1)). split; [reflexivity|].
    split; [reflexivity | apply str_of_int_nonempty].
  - reflexivity.
  - unfold proc_record. intros [= H _ _]. apply str_of_int_inj, H.
Qed.

Lemma X15_witness :
  (forall c, fmt_pid (pid c) = ""%string <-> pid c = None \/ pid c = Some 0%Z)
  /\ conn_record (SConn (Some 1234%Z) (Some ("10.0.0.5"%string, 22%Z)) None "LISTEN")
     = [("pid", str_of_int 1234); ("local_address", fmt_addr (Some ("10.0.0.5"%string, 22%Z)));
        ("remote_address", fmt_addr None); ("status", "LISTEN")]%string
  /\ (conn_record (SConn (Some 1234%Z) (Some ("10.0.0.5"%string, 22%Z)) None "LISTEN")
      = conn_record (SConn (Some 77%Z) None None "NONE") -> 1234%Z = 77%Z).
Proof.
  apply (X15_connection_pid_field
           (SConn (Some 1234%Z) (Some ("10.0.0.5"%string, 22%Z)) None "LISTEN")
           (SConn (Some 77%Z) None None "NONE") 1234%Z 77%Z);
    (reflexivity || discriminate).
Defined.

Example processes_example :
  collect_processes
    [Proc (PInfo 0 None None);
     Gone AccessDenied;
     Proc (PInfo 812 (Some "sshd"%string) (Some ["/usr/sbin/sshd"; "-D"]%string))]
  = [[("pid", "0"); ("name", ""); ("cmdline", "")];
     [("pid", "812"); ("name", "sshd"); ("cmdline", "/usr/sbin/sshd -D")]]%string.
Proof. reflexivity. Qed.

End CollectorsExtras.

(* ===================================================================== *)
(** * hash_files into write_csv                                       *)
(* ===================================================================== *)

Module PipelineExtras.
Import Fs HashFiles WriteCsv PyFacts Sha256Facts HashFilesFacts HashFilesClaims.
Import WriteCsvClaims.

Lemma lower_hex_valid s :
  forallb Sha256.is_lower_hex (list_ascii_of_string s) = true ->
  Text.utf8_valid s = true.
Proof.
  induction s as [|c s IH]; [reflexivity|].
  simpl. intros H. apply andb_true_iff in H as [Hc Hs].
  assert (Hle : (N_of_ascii c <=? 0x7F)%N = true).
  { unfold Sha256.is_lower_hex in Hc. simpl in Hc.
    repeat (apply orb_true_iff in Hc as [Hc | Hc];
            [apply Ascii.eqb_eq in Hc; subst c; reflexivity|]).
    discriminate. }
  unfold Text.utf8_valid. cbn [Text.valid_from]. rewrite Hle. exact (IH Hs).
Qed.

Lemma records_are_hash_records evs :
  Forall (fun r => exists path d, r = hash_record path d
                                  /\ Text.utf8_valid d = true)
         (omap record_of evs).
Proof.
  induction evs as [|[target | path f] evs IH]; simpl.
  - apply Stdlib.Lists.List.Forall_nil.
  - exact IH.
  - destruct (hash_stream chunk_size f) as [d|e] eqn:Hd; [|exact IH].
    apply Stdlib.Lists.List.Forall_cons; [|exact IH].
    exists path, d. split; [reflexivity|].
    rewrite (hash_stream_digest _ _ _ chunk_size_pos Hd).
    apply lower_hex_valid, hex_of_hstate_lower.
Qed.

(** On hash records [write_csv] is the header [file,sha256] and then
    the loop over the records. *)
Lemma csv_of_hash_records open_fault hs path (disk : gmap string csv_file) :
  hs <> [] ->
  Forall (fun r => exists p d, r = hash_record p d /\ Text.utf8_valid d = true) hs ->
  open_fault path = None ->
  write_csv open_fault hs path disk
  = for_each hs (writerow ["file"; "sha256"]%string path)
      (<[path := [["file"; "sha256"]%string]]> disk).
Proof.
  intros Hne Hrec Hopen. destruct hs as [|first rest]; [congruence|].
  inversion Hrec as [|? ? (p & d & -> & _) _]; subst.
  unfold write_csv. rewrite Hopen.
  change (map fst (hash_record p d)) with ["file"; "sha256"]%string.
  rewrite header_written by reflexivity. reflexivity.
Qed.

Lemma hash_rows_written path hs :
  Forall (fun r => exists p d, r = hash_record p d /\ Text.utf8_valid d = true) hs ->
  Forall (fun r => Text.utf8_valid (dict_get r "file") = true) hs ->
  forall (disk : gmap string csv_file) acc,
    disk !! path = Some acc ->
    for_each hs (writerow ["file"; "sha256"]%string path) disk
    = (Return tt, <[path := acc ++ map (map snd) hs]> disk).
Proof.
  intros Hrec Hval disk acc Hacc.
  assert (Hrows : map (row_of ["file"; "sha256"]%string) hs = map (map snd) hs).
  { clear -Hrec. induction Hrec as [|r rs (p & d & -> & _) _ IH]; [reflexivity|].
    cbn [map]. rewrite <- IH. reflexivity. }
  rewrite <- Hrows. apply writerows_ok; [|exact Hacc].
  clear -Hrec Hval. induction Hrec as [|r rs (p & d & -> & Hd) _ IH];
    [apply Stdlib.Lists.List.Forall_nil|].
  inversion Hval as [|? ? Hp Hval']; subst.
  apply Stdlib.Lists.List.Forall_cons; [|apply IH, Hval'].
  split; [reflexivity|].
  change (Text.utf8_valid p = true) in Hp.
  change (row_of ["file"; "sha256"]%string (hash_record p d)) with [p; d].
  simpl. rewrite Hp, Hd. reflexivity.
Qed.

(** X20. What [main] does with the result of [hash_files].  The records
    have the keys [file] and [sha256], and every digest can be encoded.
    When every path can be encoded as UTF-8, [write_csv] returns: with
    no record it leaves the disk as it is (no [hashes.csv] is made),
    otherwise the file holds the header [file,sha256] and one row per
    record, its path and its digest, in the order of the run.  When
    some path cannot be encoded, [write_csv] raises
    [UnicodeEncodeError] at the first such record and the file holds
    the header and the rows of the records before it. *)
Theorem X20_hash_records_into_csv
    (fs : filesystem) (targets : list string) (log log' : list string)
    (hs : list (list (string * string)))
    (open_fault : string -> option exc) (path : string)
    (disk : gmap string csv_file) :
  hash_files fs targets log = (Return hs, log') ->
  open_fault path = None ->
  Forall (fun r => exists p d, r = [("file", p); ("sha256", d)]%string
                               /\ Text.utf8_valid d = true) hs
  /\ (Forall (fun r => Text.utf8_valid (dict_get r "file") = true) hs ->
      write_csv open_fault hs path disk
      = (Return tt,
         match hs with
         | [] => disk
         | _ => <[path := ["file"; "sha256"]%string :: map (map snd) hs]> disk
         end))
  /\ (forall pre r post,
        hs = pre ++ r :: post ->
        Forall (fun r' => Text.utf8_valid (dict_get r' "file") = true) pre ->
        Text.utf8_valid (dict_get r "file") = false ->
        exists msg,
          write_csv open_fault hs path disk
          = (Raise (Exc UnicodeEncodeError msg),
             <[path := ["file"; "sha256"]%string :: map (map snd) pre]> disk)).
Proof.
  intros Hrun Hopen.
  assert (Hrec : Forall (fun r => exists p d, r = hash_record p d
                                              /\ Text.utf8_valid d = true) hs).
  { unfold hash_files in Hrun. rewrite hash_files_loop_events in Hrun.
    destruct (for_each (events fs targets) step (State [] log))
      as [[[]|e] st] eqn:Hloop; [|discriminate].
    injection Hrun as <- <-.
    apply run_events_return in Hloop as [-> _]. simpl.
    apply records_are_hash_records. }
  split; [exact Hrec|]. split.
  - intros Hval. destruct hs as [|first rest] eqn:Hhs; [reflexivity|].
    rewrite <- Hhs in *.
    rewrite csv_of_hash_records by (subst hs; discriminate || assumption).
    rewrite (hash_rows_written path hs Hrec Hval _ [["file"; "sha256"]%string])
      by apply lookup_insert_eq.
    rewrite insert_insert_eq, Hhs. reflexivity.
  - intros pre r post Hhs Hpre Hbad. eexists.
    rewrite csv_of_hash_records;
      [|subst hs; destruct pre; discriminate | exact Hrec | exact Hopen].
    subst hs. rewrite for_each_app. unfold bind at 1.
    apply Forall_app in Hrec as [Hrec_pre Hrec_r].
    rewrite (hash_rows_written path pre Hrec_pre Hpre _ [["file"; "sha256"]%string])
      by apply lookup_insert_eq.
    rewrite insert_insert_eq. simpl for_each. unfold bind.
    inversion Hrec_r as [|? ? (p & d & -> & Hd) _]; subst.
    rewrite writerow_unencodable; [reflexivity | reflexivity |].
    change (Text.utf8_valid p = false) in Hbad.
    change (row_of ["file"; "sha256"]%string (hash_record p d)) with [p; d].
    simpl. rewrite Hbad. reflexivity.
Qed.

Lemma X20_witness :
  write_csv Demo.always_opens [Demo.hello_record; Demo.world_record]
    "output/hashes.csv" ∅
  = (Return tt,
     <["output/hashes.csv"%string :=
         ["file"; "sha256"]%string
         :: map (map snd) [Demo.hello_record; Demo.world_record]]> ∅)
  /\ exists msg,
       write_csv Demo.always_opens Cases.latin1_records "output/hashes.csv" ∅
       = (Raise (Exc UnicodeEncodeError msg),
          <["output/hashes.csv"%string :=
              [["file"; "sha256"];
               ["/var/ir/a.txt";
                "2cf24dba5fb0a30e26e83b2ac5b9e29e1b161e5c1fa7425e73043362938b9824"]
              ]%string]> ∅).
Proof.
  split.
  - destruct (X20_hash_records_into_csv Demo.demo_fs ["/data"%string] []
                [Demo.locked_line] [Demo.hello_record; Demo.world_record]
                Demo.always_opens "output/hashes.csv"%string ∅)
      as (_ & Hgood & _); [vm_compute; reflexivity | reflexivity |].
    apply Hgood. repeat constructor.
  - destruct (X20_hash_records_into_csv Cases.latin1_fs ["/var/ir"%string] []
                [] Cases.latin1_records
                Demo.always_opens "output/hashes.csv"%string ∅)
      as (_ & _ & Hbad); [vm_compute; reflexivity | reflexivity |].
    destruct (Hbad [hd [] Cases.latin1_records]
                (hd [] (tl Cases.latin1_records)) [])
      as [msg Hmsg]; [reflexivity | repeat constructor | reflexivity |].
    exists msg. exact Hmsg.
Defined.

(** A file name that is no UTF-8 is hashed under its path, and the path
    stops [write_csv] after the rows before it. *)
Example latin1_path_stops_the_csv :
  exists d1 d2 msg,
    hash_files Cases.latin1_fs ["/var/ir"%string] []
    = (Return [[("file", "/var/ir/a.txt"); ("sha256", d1)];
               [("file", "/var/ir/" +:+ Cases.latin1_name); ("sha256", d2)]]%string,
       [])
    /\ write_csv Demo.always_opens
         [[("file", "/var/ir/a.txt"); ("sha256", d1)];
          [("file", "/var/ir/" +:+ Cases.latin1_name); ("sha256", d2)]]%string
         "output/hashes.csv" ∅
       = (Raise (Exc UnicodeEncodeError msg),
          <["output/hashes.csv"%string :=
              [["file"; "sha256"]; ["/var/ir/a.txt"; d1]]%string]> ∅).
Proof. do 3 eexists. split; vm_compute; reflexivity. Qed.

End PipelineExtras.
